(** * JSON <-> TOON codec of n8n-nodes-json-to-toon: a shallow embedding

    The two node files ([JsonToToon.node.ts], [ToonToJson.node.ts]) keep
    their codec in module-level helper functions.  Those helpers are
    embedded here as Rocq functions over the fragment of ECMAScript they
    use: strings as sequences of UTF-16 code units, JSON values, ordinary
    objects with their property order and their prototype, and IEEE
    doubles. *)

From Stdlib Require Import String Ascii.
From Stdlib Require Import List ZArith NArith Bool Lia.
From Stdlib Require Import SpecFloat.
Import ListNotations.

Set Implicit Arguments.
Set Warnings "-register-all".

(* ================================================================== *)
(** * The ECMAScript fragment used by the helpers *)
(* ================================================================== *)

Module JS.

(** ** Strings *)

(** A JavaScript string is a sequence of UTF-16 code units. *)
Definition char := N.
Definition jsstring := list char.

(** Literals of the source are written with [lit]. *)
Definition lit (s : string) : jsstring :=
  map N_of_ascii (list_ascii_of_string s).
Arguments lit s%_string.

Definition quote : char := 34%N.
Definition newline : char := 10%N.

Fixpoint str_eqb (s t : jsstring) : bool :=
  match s, t with
  | [], [] => true
  | c :: s', c' :: t' => N.eqb c c' && str_eqb s' t'
  | _, _ => false
  end.

(** [s.startsWith(p)] *)
Fixpoint startsWith (s p : jsstring) : bool :=
  match p, s with
  | [], _ => true
  | c :: p', c' :: s' => N.eqb c c' && startsWith s' p'
  | _ :: _, [] => false
  end.

(** [s.includes(p)] *)
Fixpoint includes (s p : jsstring) : bool :=
  startsWith s p ||
  match s with
  | [] => false
  | _ :: s' => includes s' p
  end.

(** [l.join(sep)] on an array of strings. *)
Fixpoint join (sep : jsstring) (l : list jsstring) : jsstring :=
  match l with
  | [] => []
  | [s] => s
  | s :: l' => s ++ sep ++ join sep l'
  end.

(** [s.split(sep)].  With an empty separator the string is cut into its
    code units; otherwise the string is scanned left to right, [skip]
    counting the code units of a separator occurrence still to pass. *)
Fixpoint split_scan (sep s : jsstring) (skip : nat) (cur : jsstring)
  : list jsstring :=
  match s with
  | [] => [cur]
  | c :: s' =>
      match skip with
      | S n => split_scan sep s' n cur
      | O =>
          if startsWith s sep
          then cur :: split_scan sep s' (length sep - 1) []
          else split_scan sep s' 0 (cur ++ [c])
      end
  end.

Definition split (s sep : jsstring) : list jsstring :=
  match sep with
  | [] => map (fun c => [c]) s
  | _ :: _ => split_scan sep s 0 []
  end.

(** [s.replace(p, '')] with a string pattern: only the first occurrence
    is removed. *)
Fixpoint remove_first (s p : jsstring) : jsstring :=
  if startsWith s p then skipn (length p) s
  else match s with
       | [] => []
       | c :: s' => c :: remove_first s' p
       end.

(** The global regular-expression replace of [escapeValue]: every quote
    character is replaced by two. *)
Definition double_quotes (s : jsstring) : jsstring :=
  flat_map (fun c => if N.eqb c quote then [quote; quote] else [c]) s.

(** White space and line terminators, the code units [trim] strips. *)
Definition is_space (c : char) : bool :=
  existsb (N.eqb c)
    [9; 10; 11; 12; 13; 32; 160; 5760; 8192; 8193; 8194; 8195; 8196; 8197;
     8198; 8199; 8200; 8201; 8202; 8232; 8233; 8239; 8287; 12288; 65279]%N.

Fixpoint trimStart (s : jsstring) : jsstring :=
  match s with
  | [] => []
  | c :: s' => if is_space c then trimStart s' else s
  end.

Definition trimEnd (s : jsstring) : jsstring := rev (trimStart (rev s)).

(** [s.trim()] *)
Definition trim (s : jsstring) : jsstring := trimEnd (trimStart s).

(** Decimal digits of a non-negative integer, as [String(idx)] and
    template literals print an array index. *)
Fixpoint decimal_digits (fuel : nat) (n : N) (acc : jsstring) : jsstring :=
  match fuel with
  | O => acc
  | S fuel' =>
      let acc' := (48 + n mod 10)%N :: acc in
      if (n <? 10)%N then acc' else decimal_digits fuel' (n / 10)%N acc'
  end.

Definition decimal (n : N) : jsstring :=
  decimal_digits (S (N.to_nat (N.log2 n))) n [].

Definition is_empty (s : jsstring) : bool :=
  match s with [] => true | _ :: _ => false end.

(** ** Values *)

(** Numbers are IEEE binary64 values. *)
Definition number := spec_float.

Definition isNaN (x : number) : bool :=
  match x with S754_nan => true | _ => false end.

(** JSON values, and [undefined], which the helpers test for. An object
    is the list of its own properties in property order. *)
Inductive jsvalue :=
| VUndefined
| VNull
| VBool (b : bool)
| VNum (n : number)
| VStr (s : jsstring)
| VArr (l : list jsvalue)
| VObj (o : list (jsstring * jsvalue)).

Definition object := list (jsstring * jsvalue).

(** ** Completions *)

(** A call returns, throws, or leaves the embedded fragment: [Escapes]
    marks the runs that reach an object outside the JSON heap (a
    built-in function, [Object.prototype], an array used as a record) or
    replace a prototype. Nothing is claimed about those runs. *)
Inductive exn := TypeError.

Inductive outcome (A : Type) :=
| Ok (a : A)
| Throw (e : exn)
| Escapes.
Arguments Ok {A} a.
Arguments Throw {A} e.
Arguments Escapes {A}.

Definition bind {A B} (m : outcome A) (k : A -> outcome B) : outcome B :=
  match m with
  | Ok a => k a
  | Throw e => Throw e
  | Escapes => Escapes
  end.

Notation "x <- m ;; k" := (bind m (fun x => k))
  (at level 61, m at next level, right associativity).

Fixpoint mapM {A B} (f : A -> outcome B) (l : list A) : outcome (list B) :=
  match l with
  | [] => Ok []
  | a :: l' => b <- f a ;; bs <- mapM f l' ;; Ok (b :: bs)
  end.

(** ** Ordinary objects *)

Fixpoint own_get (k : jsstring) (o : object) : option jsvalue :=
  match o with
  | [] => None
  | (k', v) :: o' => if str_eqb k k' then Some v else own_get k o'
  end.

Definition has_own (k : jsstring) (o : object) : bool :=
  match own_get k o with Some _ => true | None => false end.

(** Array indices: the canonical decimal forms of 0 .. 2^32 - 2. Own
    properties with such keys are listed first, in ascending order. *)
Fixpoint digits_value (s : jsstring) (acc : N) : option N :=
  match s with
  | [] => Some acc
  | c :: s' =>
      if (48 <=? c)%N && (c <=? 57)%N
      then digits_value s' (acc * 10 + (c - 48))%N
      else None
  end.

Definition array_index (k : jsstring) : option N :=
  match k with
  | [] => None
  | c :: k' =>
      if N.eqb c 48 && negb (is_empty k') then None
      else match digits_value k 0 with
           | Some n => if (n <? 4294967295)%N then Some n else None
           | None => None
           end
  end.

Fixpoint own_update (k : jsstring) (v : jsvalue) (o : object) : object :=
  match o with
  | [] => []
  | (k', v') :: o' =>
      if str_eqb k k' then (k', v) :: o' else (k', v') :: own_update k v o'
  end.

Fixpoint own_insert_index (n : N) (k : jsstring) (v : jsvalue) (o : object)
  : object :=
  match o with
  | [] => [(k, v)]
  | (k', v') :: o' =>
      match array_index k' with
      | Some m =>
          if (m <? n)%N then (k', v') :: own_insert_index n k v o'
          else (k, v) :: o
      | None => (k, v) :: o
      end
  end.

(** Defining or overwriting the own data property [k]. *)
Definition own_set (k : jsstring) (v : jsvalue) (o : object) : object :=
  if has_own k o then own_update k v o
  else match array_index k with
       | Some n => own_insert_index n k v o
       | None => o ++ [(k, v)]
       end.

(** What a property lookup finds on an object created by a literal or by
    [JSON.parse]: an own property, or one of the twelve properties of
    [Object.prototype]. *)
Inductive slot :=
| Own (v : jsvalue)
| Builtin (name : jsstring)
| ObjectPrototype
| Missing.

Definition proto_key : jsstring := lit "__proto__".

Definition builtin_name (k : jsstring) : option jsstring :=
  if str_eqb k (lit "constructor") then Some (lit "Object")
  else if existsb (str_eqb k)
            [lit "__defineGetter__"; lit "__defineSetter__";
             lit "hasOwnProperty"; lit "__lookupGetter__";
             lit "__lookupSetter__"; lit "isPrototypeOf";
             lit "propertyIsEnumerable"; lit "toString"; lit "valueOf";
             lit "toLocaleString"]
       then Some k
       else None.

(** [o[k]] read, and the outcome of [k in o]. *)
Definition Get (o : object) (k : jsstring) : slot :=
  match own_get k o with
  | Some v => Own v
  | None =>
      if str_eqb k proto_key then ObjectPrototype
      else match builtin_name k with
           | Some name => Builtin name
           | None => Missing
           end
  end.

(** [o[k] = v].  An own property is overwritten; [__proto__] otherwise
    reaches the inherited setter, which ignores a value that is neither
    an object nor [null]; any other key becomes a new own property. *)
Definition Put (o : object) (k : jsstring) (v : jsvalue) : outcome object :=
  if has_own k o then Ok (own_update k v o)
  else if str_eqb k proto_key then
    match v with
    | VNull | VArr _ | VObj _ => Escapes
    | _ => Ok o
    end
  else Ok (own_set k v o).

(** ** Number conversions of the host *)

(** Two conversions are built-ins of the engine and stay abstract:
    [Number(s)] on a string (StringToNumber), and the decimal digits
    that [String(x)] prints for a finite non-zero double. *)
Class Host := {
  Number : jsstring -> number;
  printFinite : number -> jsstring
}.

(** Number::toString, radix 10. *)
Definition numberToString {host : Host} (x : number) : jsstring :=
  match x with
  | S754_nan => lit "NaN"
  | S754_zero _ => lit "0"
  | S754_infinity false => lit "Infinity"
  | S754_infinity true => lit "-Infinity"
  | S754_finite _ _ _ => printFinite x
  end.

(** Arithmetic on doubles. *)
Definition prec : Z := 53.
Definition emax : Z := 1024.
Definition of_Z (z : Z) : number := binary_normalize prec emax z 0 false.
Definition fdiv : number -> number -> number := SFdiv prec emax.
Definition fmul : number -> number -> number := SFmul prec emax.

(** [x.toFixed(f)].  A finite [x] below 10^21 prints as the integer
    nearest to [x * 10^f] (the larger one on a tie) with a point before
    its last [f] digits; the sign is printed when [x < 0]. *)
Definition scaled_round (m : positive) (e : Z) (f : nat) : Z :=
  let p := (Zpos m * 10 ^ Z.of_nat f)%Z in
  match e with
  | Zneg d => ((2 * p + 2 ^ Zpos d) / (2 * 2 ^ Zpos d))%Z
  | _ => (p * 2 ^ e)%Z
  end.

Definition at_least_1e21 (m : positive) (e : Z) : bool :=
  match e with
  | Zneg d => (10 ^ 21 * 2 ^ Zpos d <=? Zpos m)%Z
  | _ => (10 ^ 21 <=? Zpos m * 2 ^ e)%Z
  end.

Definition fixed_digits (n : Z) (f : nat) : jsstring :=
  let m := decimal (Z.to_N n) in
  let m := repeat 48%N (S f - length m) ++ m in
  match f with
  | O => m
  | S _ => firstn (length m - f) m ++ lit "." ++ skipn (length m - f) m
  end.

Definition toFixed {host : Host} (x : number) (f : nat) : jsstring :=
  match x with
  | S754_finite s m e =>
      if at_least_1e21 m e then numberToString x
      else (if s then lit "-" else []) ++ fixed_digits (scaled_round m e f) f
  | S754_zero _ => fixed_digits 0 f
  | _ => numberToString x
  end.

(** ** [String(v)] *)

Section ToString.
Context {host : Host}.

(** An object prints as [[object Object]] through the inherited
    [toString]; an own property of that name shadows it, is not
    callable, and the conversion throws.  An array prints as its
    [join(',')]. *)
Fixpoint ToString (v : jsvalue) : outcome jsstring :=
  match v with
  | VUndefined => Ok (lit "undefined")
  | VNull => Ok (lit "null")
  | VBool b => Ok (if b then lit "true" else lit "false")
  | VNum n => Ok (numberToString n)
  | VStr s => Ok s
  | VArr l =>
      parts <- mapM (fun x => match x with
                              | VUndefined | VNull => Ok []
                              | _ => ToString x
                              end) l ;;
      Ok (join (lit ",") parts)
  | VObj o =>
      if has_own (lit "toString") o then Throw TypeError
      else Ok (lit "[object Object]")
  end.

(** [l.join(',')] on an array value. *)
Definition array_join (l : list jsvalue) : outcome jsstring := ToString (VArr l).

(** [String(v ?? '')] *)
Definition String_or_empty (v : jsvalue) : outcome jsstring :=
  match v with
  | VUndefined | VNull => Ok []
  | _ => ToString v
  end.

(** [String(o[k] ?? '')], where the lookup may end on the prototype. *)
Definition String_of_slot (s : slot) : outcome jsstring :=
  match s with
  | Own v => String_or_empty v
  | Missing => Ok []
  | ObjectPrototype => Ok (lit "[object Object]")
  | Builtin name => Ok (lit "function " ++ name ++ lit "() { [native code] }")
  end.

End ToString.

End JS.

Import JS.

(* ================================================================== *)
(** * Encoder helpers, [JsonToToon.node.ts] *)
(* ================================================================== *)

(** [escapeValue(value, delimiter)] *)
Definition escapeValue (value delimiter : jsstring) : jsstring :=
  if includes value delimiter || includes value [newline]
  then [quote] ++ double_quotes value ++ [quote]
  else value.

Section Encoder.
Context {host : Host}.

(** [flattenObject(obj, prefix, separator)].  [flatten_entries] is the
    loop over [Object.entries(obj)] with [result] threaded through it,
    [flatten_child] the recursive call on a nested object;
    [Object.assign] writes the properties of the flattened child in
    their order. *)
Definition assign (result source : object) : outcome object :=
  fold_left (fun acc kv => r <- acc ;; Put r (fst kv) (snd kv))
    source (Ok result).

Fixpoint flatten_entries
  (flatten_child : jsvalue -> jsstring -> outcome object)
  (prefix separator : jsstring) (entries : object) (result : object)
  : outcome object :=
  match entries with
  | [] => Ok result
  | (key, value) :: entries' =>
      let newKey :=
        if is_empty prefix then key else prefix ++ separator ++ key in
      match value with
      | VObj _ =>
          child <- flatten_child value newKey ;;
          result' <- assign result child ;;
          flatten_entries flatten_child prefix separator entries' result'
      | VArr l =>
          joined <- array_join l ;;
          result' <- Put result newKey (VStr joined) ;;
          flatten_entries flatten_child prefix separator entries' result'
      | _ =>
          result' <- Put result newKey value ;;
          flatten_entries flatten_child prefix separator entries' result'
      end
  end.

Fixpoint flattenObject_value (obj : jsvalue) (prefix separator : jsstring)
  : outcome object :=
  match obj with
  | VObj entries =>
      flatten_entries (fun value newKey =>
                         flattenObject_value value newKey separator)
        prefix separator entries []
  | _ => Ok []
  end.

Definition flattenObject (obj : object) (prefix separator : jsstring)
  : outcome object :=
  flattenObject_value (VObj obj) prefix separator.

(** The schema line both converters emit. *)
Definition schema_line (delimiter : jsstring) (keys : list jsstring)
  : jsstring :=
  lit "@schema" ++ delimiter ++ join delimiter keys ++ [newline].

(** [convertObjectToToon(obj, delimiter, nestedSeparator, includeSchema)] *)
Definition convertObjectToToon (obj : object)
  (delimiter nestedSeparator : jsstring) (includeSchema : bool)
  : outcome jsstring :=
  flattenedPairs <- flattenObject obj [] nestedSeparator ;;
  let keys := map fst flattenedPairs in
  values <- mapM (fun v => s <- String_or_empty v ;;
                           Ok (escapeValue s delimiter))
              (map snd flattenedPairs) ;;
  let result := if includeSchema then schema_line delimiter keys else [] in
  Ok (result ++ join delimiter values).

(** [convertArrayToToon(arr, delimiter, includeSchema)].  The elements
    are read as records, as the casts of the source declare them. *)
Definition array_row (keys : list jsstring) (delimiter : jsstring)
  (record : object) : outcome jsstring :=
  values <- mapM (fun key => s <- String_of_slot (Get record key) ;;
                             Ok (escapeValue s delimiter)) keys ;;
  Ok (join delimiter values ++ [newline]).

Definition convertArrayToToon (arr : list object) (delimiter : jsstring)
  (includeSchema : bool) : outcome jsstring :=
  match arr with
  | [] => Ok []
  | firstItem :: _ =>
      let keys := map fst firstItem in
      let result := if includeSchema then schema_line delimiter keys else [] in
      rows <- mapM (array_row keys delimiter) arr ;;
      Ok (trim (result ++ concat rows))
  end.

(** [estimateTokenSavings(jsonStr, toonStr)].  The token counts
    [Math.ceil(length / 4)] are integers far below 2^53, so they are
    computed in [Z] and enter the division as exact doubles. *)
Definition token_count (s : jsstring) : Z :=
  (Z.of_nat (length s) + 3) / 4.

Definition estimateTokenSavings (jsonStr toonStr : jsstring) : jsstring :=
  let jsonTokens := token_count jsonStr in
  let toonTokens := token_count toonStr in
  let savings :=
    fmul (fdiv (of_Z (jsonTokens - toonTokens)) (of_Z jsonTokens))
         (of_Z 100) in
  lit "~" ++ toFixed savings 1 ++ lit "% token reduction".

End Encoder.

(* ================================================================== *)
(** * Decoder helpers, [ToonToJson.node.ts] *)
(* ================================================================== *)

(** [parseDelimitedLine(line, delimiter)].  The [for] loop over the
    index [i] becomes a recursion on the rest of the line; [line[i + 1]]
    is the head of that rest, and the extra [i++] drops it. *)
Fixpoint parseDelimitedLine_loop (delimiter : jsstring) (line : jsstring)
  (values : list jsstring) (current : jsstring) (inQuotes : bool)
  : list jsstring :=
  match line with
  | [] => values ++ [current]
  | c :: rest =>
      if N.eqb c quote then
        match rest with
        | c' :: rest' =>
            if inQuotes && N.eqb c' quote
            then parseDelimitedLine_loop delimiter rest' values
                   (current ++ [quote]) inQuotes
            else parseDelimitedLine_loop delimiter rest values current
                   (negb inQuotes)
        | [] => parseDelimitedLine_loop delimiter rest values current
                  (negb inQuotes)
        end
      else if str_eqb [c] delimiter && negb inQuotes then
        parseDelimitedLine_loop delimiter rest (values ++ [current]) [] inQuotes
      else
        parseDelimitedLine_loop delimiter rest values (current ++ [c]) inQuotes
  end.

Definition parseDelimitedLine (line delimiter : jsstring) : list jsstring :=
  parseDelimitedLine_loop delimiter line [] [] false.

Section Decoder.
Context {host : Host}.

(** [setNestedValue(obj, path, value, separator)].  [current] walks down
    the record; the record is rebuilt on the way back.  A segment that
    is [in] the current object is followed whatever it holds: an object
    is entered, and on a primitive the next [in] test or the final
    assignment throws (strict mode), except that assigning [__proto__]
    on a primitive is silently ignored. *)
Definition assign_on_primitive (rest : list jsstring) : bool :=
  match rest with
  | [last] => str_eqb last proto_key
  | _ => false
  end.

Fixpoint setNestedValue_walk (keys : list jsstring) (current : object)
  (value : jsvalue) : outcome object :=
  match keys with
  | [] => Put current (lit "undefined") value
  | [last] => Put current last value
  | key :: rest =>
      match Get current key with
      | Missing =>
          child <- setNestedValue_walk rest [] value ;;
          Ok (own_set key (VObj child) current)
      | Own (VObj child) =>
          child' <- setNestedValue_walk rest child value ;;
          Ok (own_update key (VObj child') current)
      | Own (VStr _) | Own (VNum _) | Own (VBool _) =>
          if assign_on_primitive rest then Ok current else Throw TypeError
      | Own VNull | Own VUndefined => Throw TypeError
      | Own (VArr _) | Builtin _ | ObjectPrototype => Escapes
      end
  end.

Definition setNestedValue (obj : object) (path : jsstring) (value : jsvalue)
  (separator : jsstring) : outcome object :=
  setNestedValue_walk (split path separator) obj value.

(** The type conversion of [parseToon], lines 99-105. *)
Definition coerce (parseNumbers parseBooleans : bool) (value : jsstring)
  : jsvalue :=
  if parseNumbers && negb (isNaN (Number value)) && negb (is_empty value)
  then VNum (Number value)
  else if parseBooleans then
    if str_eqb value (lit "true") then VBool true
    else if str_eqb value (lit "false") then VBool false
    else VStr value
  else VStr value.

(** The loop over [keys] that fills one record, lines 95-109. *)
Fixpoint fill_record (keys : list jsstring) (i : nat) (values : list jsstring)
  (nestedSeparator : jsstring) (parseNumbers parseBooleans : bool)
  (record : object) : outcome object :=
  match keys with
  | [] => Ok record
  | key :: keys' =>
      let value := match nth_error values i with
                   | Some s => s
                   | None => []
                   end in
      record' <- setNestedValue record key
                   (coerce parseNumbers parseBooleans value) nestedSeparator ;;
      fill_record keys' (S i) values nestedSeparator parseNumbers
        parseBooleans record'
  end.

(** The loop over [dataLines], lines 89-112. *)
Fixpoint parse_rows (keys : list jsstring) (dataLines : list jsstring)
  (delimiter nestedSeparator : jsstring) (parseNumbers parseBooleans : bool)
  : outcome (list object) :=
  match dataLines with
  | [] => Ok []
  | line :: dataLines' =>
      if is_empty (trim line)
      then parse_rows keys dataLines' delimiter nestedSeparator
             parseNumbers parseBooleans
      else
        let values := parseDelimitedLine line delimiter in
        record <- fill_record keys 0 values nestedSeparator parseNumbers
                    parseBooleans [] ;;
        records <- parse_rows keys dataLines' delimiter nestedSeparator
                     parseNumbers parseBooleans ;;
        Ok (record :: records)
  end.

(** Key list and data lines, lines 72-85. *)
Definition field_keys (firstLineValues : list jsstring) : list jsstring :=
  map (fun idx => lit "field" ++ decimal (N.of_nat idx))
      (seq 0 (length firstLineValues)).

Definition schema_and_data (lines : list jsstring) (delimiter : jsstring)
  : list jsstring * list jsstring :=
  let schemaLine := hd [] lines in
  if startsWith schemaLine (lit "@schema")
  then (split (remove_first schemaLine (lit "@schema" ++ delimiter)) delimiter,
        tl lines)
  else (field_keys (parseDelimitedLine schemaLine delimiter), lines).

(** The records built from the lines of the text, lines 72-112. *)
Definition parse_records (lines : list jsstring)
  (delimiter nestedSeparator : jsstring) (parseNumbers parseBooleans : bool)
  : outcome (list object) :=
  let (keys, dataLines) := schema_and_data lines delimiter in
  parse_rows keys dataLines delimiter nestedSeparator parseNumbers
    parseBooleans.

(** Output format, lines 114-120. *)
Definition shape_output (outputFormat : jsstring) (records : list object)
  : jsvalue :=
  if str_eqb outputFormat (lit "auto") then
    match records with
    | [record] => VObj record
    | _ => VArr (map VObj records)
    end
  else if str_eqb outputFormat (lit "object") then
    match records with
    | record :: _ => VObj record
    | [] => VObj []
    end
  else VArr (map VObj records).

(** [parseToon(toon, delimiter, nestedSeparator, outputFormat,
    parseNumbers, parseBooleans)] *)
Definition parseToon (toon delimiter nestedSeparator outputFormat : jsstring)
  (parseNumbers parseBooleans : bool) : outcome jsvalue :=
  let lines := split (trim toon) [newline] in
  if Nat.eqb (length lines) 0
  then Ok (if str_eqb outputFormat (lit "array") then VArr [] else VObj [])
  else
    records <- parse_records lines delimiter nestedSeparator parseNumbers
                 parseBooleans ;;
    Ok (shape_output outputFormat records).

End Decoder.

(** [ToonToJson.execute].  The parameters of an item are taken as the
    host resolved them; [returnData] is threaded through the loop over
    the items.  A caught error becomes an [error] entry when the node
    continues on failure, and a [NodeOperationError] carrying the item
    index otherwise. *)
Record ToonOptions := {
  option_delimiter : option jsstring;
  option_nestedSeparator : option jsstring;
  option_parseNumbers : option bool;
  option_parseBooleans : option bool
}.

Record ToonItem := {
  toonInput : jsstring;
  outputFormat : jsstring;
  options : ToonOptions
}.

Inductive item_output :=
| Json (json : jsvalue)
| ErrorMessage (error : exn).

Inductive run :=
| Returned (returnData : list item_output)
| NodeOperationError (error : exn) (itemIndex : nat)
| RunEscapes.

(** [option || fallback] on an optional string. *)
Definition string_or (option : option jsstring) (fallback : jsstring)
  : jsstring :=
  match option with
  | Some s => if is_empty s then fallback else s
  | None => fallback
  end.

(** [option !== false] *)
Definition not_false (option : option bool) : bool :=
  match option with
  | Some false => false
  | _ => true
  end.

Section Execute.
Context {host : Host}.

(** The body of the [try] block, lines 220-241. *)
Definition parse_item (item : ToonItem) : outcome jsvalue :=
  let delimiter := string_or (option_delimiter (options item)) (lit "|") in
  let nestedSeparator :=
    string_or (option_nestedSeparator (options item)) (lit ".") in
  let parseNumbers := not_false (option_parseNumbers (options item)) in
  let parseBooleans := not_false (option_parseBooleans (options item)) in
  parseToon (toonInput item) delimiter nestedSeparator (outputFormat item)
    parseNumbers parseBooleans.

Fixpoint execute_loop (continueOnFail : bool) (items : list ToonItem)
  (i : nat) (returnData : list item_output) : run :=
  match items with
  | [] => Returned returnData
  | item :: items' =>
      match parse_item item with
      | Ok jsonOutput =>
          execute_loop continueOnFail items' (S i)
            (returnData ++ [Json jsonOutput])
      | Throw error =>
          if continueOnFail
          then execute_loop continueOnFail items' (S i)
                 (returnData ++ [ErrorMessage error])
          else NodeOperationError error i
      | Escapes => RunEscapes
      end
  end.

Definition execute (continueOnFail : bool) (items : list ToonItem) : run :=
  execute_loop continueOnFail items 0 [].

End Execute.

(* ================================================================== *)
(** * A reference host *)
(* ================================================================== *)

(** The two abstract conversions, written out after ECMA-262 so that
    the embedding runs on concrete inputs: StringToNumber with a
    correctly rounded result, and the shortest decimal form that reads
    back as the same double. *)
Module Reference.

Definition is_digit (c : char) : bool := (48 <=? c)%N && (c <=? 57)%N.

Definition digit_of (radix : N) (c : char) : option N :=
  let d := if is_digit c then Some (c - 48)%N
           else if (97 <=? c)%N && (c <=? 102)%N then Some (c - 87)%N
           else if (65 <=? c)%N && (c <=? 70)%N then Some (c - 55)%N
           else None in
  match d with
  | Some n => if (n <? radix)%N then Some n else None
  | None => None
  end.

Fixpoint radix_value (radix : N) (s : jsstring) (acc : N) : option N :=
  match s with
  | [] => Some acc
  | c :: s' =>
      match digit_of radix c with
      | Some d => radix_value radix s' (acc * radix + d)%N
      | None => None
      end
  end.

Fixpoint span_digits (s : jsstring) : jsstring * jsstring :=
  match s with
  | c :: s' =>
      if is_digit c
      then let (ds, rest) := span_digits s' in (c :: ds, rest)
      else ([], s)
  | [] => ([], [])
  end.

(** The double nearest to [m * 10^e], ties to even. *)
Definition round_decimal (neg : bool) (m : N) (e : Z) : number :=
  match m with
  | N0 => S754_zero neg
  | Npos p =>
      let d := Z.of_nat (length (decimal m)) in
      if (400 <? e + d)%Z then S754_infinity neg
      else if (e + d <? -400)%Z then S754_zero neg
      else match e with
           | Zneg q =>
               fdiv (S754_finite neg p 0)
                    (S754_finite false (Z.to_pos (10 ^ Zpos q)) 0)
           | _ => binary_normalize prec emax
                    ((if neg then -1 else 1) * (Zpos p * 10 ^ e)) 0 false
           end
  end.

(** An exponent part: [e] or [E], an optional sign, digits. *)
Definition exponent_part (s : jsstring) : option Z :=
  match s with
  | [] => Some 0%Z
  | c :: s' =>
      if N.eqb c 101 || N.eqb c 69 then
        let (neg, s'') := match s' with
                          | c' :: r => if N.eqb c' 45 then (true, r)
                                       else if N.eqb c' 43 then (false, r)
                                       else (false, s')
                          | [] => (false, s')
                          end in
        match s'' with
        | [] => None
        | _ :: _ =>
            match digits_value s'' 0 with
            | Some n => Some (if neg then - Z.of_N n else Z.of_N n)%Z
            | None => None
            end
        end
      else None
  end.

Definition unsigned_decimal (neg : bool) (s : jsstring) : number :=
  if str_eqb s (lit "Infinity") then S754_infinity neg
  else
    let (int_part, r) := span_digits s in
    let (frac_part, r') :=
      match r with
      | c :: r0 => if N.eqb c 46 then span_digits r0 else ([], r)
      | [] => ([], r)
      end in
    if is_empty int_part && is_empty frac_part then S754_nan
    else
      match exponent_part r', digits_value (int_part ++ frac_part) 0 with
      | Some e, Some m =>
          round_decimal neg m (e - Z.of_nat (length frac_part))
      | _, _ => S754_nan
      end.

Definition prefixed (radix : N) (s : jsstring) : number :=
  match s with
  | [] => S754_nan
  | _ :: _ =>
      match radix_value radix s 0 with
      | Some n => round_decimal false n 0
      | None => S754_nan
      end
  end.

Definition StringToNumber (s : jsstring) : number :=
  match trim s with
  | [] => S754_zero false
  | (c :: r) as t =>
      match r with
      | c' :: r' =>
          if N.eqb c 48 && (N.eqb c' 120 || N.eqb c' 88) then prefixed 16 r'
          else if N.eqb c 48 && (N.eqb c' 111 || N.eqb c' 79)
          then prefixed 8 r'
          else if N.eqb c 48 && (N.eqb c' 98 || N.eqb c' 66)
          then prefixed 2 r'
          else if N.eqb c 45 then unsigned_decimal true r
          else if N.eqb c 43 then unsigned_decimal false r
          else unsigned_decimal false t
      | [] => unsigned_decimal false t
      end
  end.

(** Shortest digits.  [x = p / q > 0]; [n0] is the decimal exponent
    with [10^(n0-1) <= x < 10^n0]. *)
Definition pow10_le (n : Z) (p q : Z) : bool :=
  match n with
  | Zneg d => (q <=? p * 10 ^ Zpos d)%Z
  | _ => (10 ^ n * q <=? p)%Z
  end.

Fixpoint decimal_exponent (fuel : nat) (n : Z) (p q : Z) : Z :=
  match fuel with
  | O => n
  | S fuel' => if pow10_le n p q then decimal_exponent fuel' (n + 1) p q
               else n
  end.

Definition sf_eqb (x y : number) : bool :=
  match x, y with
  | S754_finite s m e, S754_finite s' m' e' =>
      Bool.eqb s s' && Pos.eqb m m' && Z.eqb e e'
  | _, _ => false
  end.

(** The candidates with [k] digits: the two integers around
    [x * 10^(k - n0)]; the nearer one wins, the even one on a tie. *)
Definition candidate (x : number) (p q n0 : Z) (k : Z) : option Z :=
  let sh := (k - n0)%Z in
  let (num, den) := match sh with
                    | Zneg d => (p, q * 10 ^ Zpos d)%Z
                    | _ => (p * 10 ^ sh, q)%Z
                    end in
  let lo := (num / den)%Z in
  let hi := (lo + 1)%Z in
  let ok c := sf_eqb (round_decimal false (Z.to_N c) (n0 - k)) x in
  match ok lo, ok hi with
  | true, true =>
      match (2 * (num mod den) ?= den)%Z with
      | Lt => Some lo
      | Gt => Some hi
      | Eq => Some (if Z.even lo then lo else hi)
      end
  | true, false => Some lo
  | false, true => Some hi
  | false, false => None
  end.

Fixpoint shortest (fuel : nat) (x : number) (p q n0 : Z) (k : Z)
  : Z * Z :=
  match fuel with
  | O => (0, k)%Z
  | S fuel' =>
      match candidate x p q n0 k with
      | Some c => (c, k)
      | None => shortest fuel' x p q n0 (k + 1)
      end
  end.

Definition zeros (n : Z) : jsstring := repeat 48%N (Z.to_nat n).

Definition layout (digits : jsstring) (n : Z) : jsstring :=
  let k := Z.of_nat (length digits) in
  if (k <=? n)%Z && (n <=? 21)%Z then digits ++ zeros (n - k)
  else if (0 <? n)%Z && (n <=? 21)%Z
  then firstn (Z.to_nat n) digits ++ lit "." ++ skipn (Z.to_nat n) digits
  else if (-6 <? n)%Z && (n <=? 0)%Z
  then lit "0." ++ zeros (- n) ++ digits
  else
    let e := (n - 1)%Z in
    let es := (if (e <? 0)%Z then lit "-" else lit "+")
              ++ decimal (Z.to_N (Z.abs e)) in
    match digits with
    | [d] => [d] ++ lit "e" ++ es
    | d :: ds => [d] ++ lit "." ++ ds ++ lit "e" ++ es
    | [] => []
    end.

Definition print_finite (x : number) : jsstring :=
  match x with
  | S754_finite s m e =>
      let (p, q) := match e with
                    | Zneg d => (Zpos m, 2 ^ Zpos d)%Z
                    | _ => (Zpos m * 2 ^ e, 1)%Z
                    end in
      let lg := (Z.log2 (Zpos m) + e)%Z in
      let n0 := decimal_exponent 8 (lg * 30103 / 100000 - 2) p q in
      let (c, k) := shortest 17 (S754_finite false m e) p q n0 1 in
      let (digits, n) :=
        if (c =? 10 ^ k)%Z then (lit "1", n0 + 1)%Z
        else (decimal (Z.to_N c), n0) in
      (if s then lit "-" else []) ++ layout digits n
  | _ => []
  end.

#[export] Instance host : Host :=
  {| Number := StringToNumber; printFinite := print_finite |}.

End Reference.

(* ================================================================== *)
(** * Vocabulary of the statements *)
(* ================================================================== *)


Definition is_object (v : jsvalue) : bool :=
  match v with VObj _ => true | _ => false end.

(** Defining a list of properties one after the other. *)
Definition define_all (kvs : object) (o : object) : object :=
  fold_left (fun o kv => own_set (fst kv) (snd kv) o) kvs o.

(** Keys listed in property order: defining them one after the other on
    an empty object enumerates them in the order of the list. *)
Definition property_order (keys : list jsstring) : Prop :=
  map fst (fold_left (fun o k => own_set k VUndefined o) keys []) = keys.

(** A key that the schema line and the nested-key assignment carry
    unchanged: free of the delimiter and of newlines, one segment under
    the nested separator, and not [__proto__]. *)
Definition plain_key (d : char) (separator : jsstring) (k : jsstring)
  : Prop :=
  includes k [d] = false
  /\ includes k [newline] = false
  /\ split k separator = [k]
  /\ k <> proto_key.

(** A field text that one data line carries unchanged: free of
    newlines, and quoted by [escapeValue] if it holds a quote. *)
Definition plain_text (d : char) (s : jsstring) : Prop :=
  includes s [newline] = false
  /\ (includes s [d] = true \/ includes s [quote] = false).

(** A line that [trim] leaves alone on the right and that is not
    skipped as blank: its last code unit is not white space. *)
Definition ends_in_ink (line : jsstring) : Prop :=
  exists body c, line = body ++ [c] /\ is_space c = false.

(** What [flattenObject] stores for one property of a flat object. *)
Definition flat_entry {host : Host} (kv : jsstring * jsvalue)
  : outcome (jsstring * jsvalue) :=
  match snd kv with
  | VArr l => joined <- array_join l ;; Ok (fst kv, VStr joined)
  | v => Ok (fst kv, v)
  end.

(** Values that are neither objects nor arrays. *)
Definition is_leaf (v : jsvalue) : bool :=
  match v with
  | VObj _ | VArr _ => false
  | _ => true
  end.

(** Reading a record along a list of segments, through own properties. *)
Fixpoint lookup_path (keys : list jsstring) (o : object) : option jsvalue :=
  match keys with
  | [] => None
  | [k] => own_get k o
  | k :: rest =>
      match own_get k o with
      | Some (VObj child) => lookup_path rest child
      | _ => None
      end
  end.

(** The record that holds one value at the end of one path. *)
Fixpoint nest (keys : list jsstring) (v : jsvalue) : object :=
  match keys with
  | [] => []
  | [k] => [(k, v)]
  | k :: rest => [(k, VObj (nest rest v))]
  end.



(** A key that an empty object neither owns nor inherits. *)
Definition ordinary_key (k : jsstring) : Prop := Get [] k = Missing.

(** The lines the row loop skips. *)
Definition is_blank (line : jsstring) : bool := is_empty (trim line).

(** The field of a row at a position: the token there, or the empty
    string past the end of the row. *)
Definition field_at (values : list jsstring) (i : nat) : jsstring :=
  nth i values [].

(** ** Sample data *)

(** The default delimiter and nested separator of the nodes. *)
Definition bar : jsstring := lit "|".
Definition dot : jsstring := lit ".".

(** The example of the README. *)
Definition john : object :=
  [(lit "name", VStr (lit "John"));
   (lit "age", VNum (of_Z 30));
   (lit "city", VStr (lit "Madrid"))].

Definition john_toon : jsstring :=
  lit "@schema|name|age|city" ++ [newline] ++ lit "John|30|Madrid".

(** A flat object whose only key holds the nested separator. *)
Definition dotted : object := [(lit "a.b", VStr (lit "x"))].

Definition dotted_toon : jsstring :=
  lit "@schema|a.b" ++ [newline] ++ lit "x".

(** A string of two lines, and an object holding it. *)
Definition two_lines : jsstring := lit "x" ++ [newline] ++ lit "y".

Definition note : object := [(lit "note", VStr two_lines)].

Definition note_toon : jsstring :=
  lit "@schema|note" ++ [newline] ++ [quote] ++ two_lines ++ [quote].

(** A string with a quote and neither delimiter nor newline. *)
Definition quoted_word : jsstring := lit "a" ++ [quote] ++ lit "b".

(** A row whose second key runs through the value of its first. *)
Definition clash_toon : jsstring :=
  lit "@schema|a|a.b" ++ [newline] ++ lit "x|y".

(** An array whose first element names a property every object
    inherits, and whose second element lacks it. *)
Definition inherited_rows : list object :=
  [[(lit "toString", VStr (lit "x"))]; []].

(** Three lines without a schema line. *)
Definition headerless_toon : jsstring :=
  lit "a|b|c" ++ [newline] ++ lit "1|true" ++ [newline] ++ lit "x|y|z".

Definition headerless_records : list object :=
  [[(lit "field0", VStr (lit "a")); (lit "field1", VStr (lit "b"));
    (lit "field2", VStr (lit "c"))];
   [(lit "field0", VNum (of_Z 1)); (lit "field1", VBool true);
    (lit "field2", VStr [])];
   [(lit "field0", VStr (lit "x")); (lit "field1", VStr (lit "y"));
    (lit "field2", VStr (lit "z"))]].

(** An object with a nested object and an array, and its flattened
    form under the separator [.]. *)
Definition ann : object :=
  [(lit "user", VObj [(lit "name", VStr (lit "Ann"));
                      (lit "tags", VArr [VStr (lit "a"); VStr (lit "b")])]);
   (lit "n", VNum (of_Z 1))].

Definition ann_flat : object :=
  [(lit "user.name", VStr (lit "Ann"));
   (lit "user.tags", VStr (lit "a,b"));
   (lit "n", VNum (of_Z 1))].

(** Two records with the same keys, the field texts of their rows, and
    lines for the same keys, one of them blank and one a field short. *)
Definition people : list object :=
  [[(lit "name", VStr (lit "Ann")); (lit "age", VNum (of_Z 30))];
   [(lit "name", VStr (lit "Bob")); (lit "age", VNull)]].

Definition people_texts : list (list jsstring) :=
  [[lit "Ann"; lit "30"]; [lit "Bob"; []]].

Definition people_lines : list jsstring :=
  [lit "Ann|30"; lit "  "; lit "Bob"].

(** A row with a string, a number and a boolean. *)
Definition typed_toon : jsstring :=
  lit "@schema|name|age|ok" ++ [newline] ++ lit "Ann|30|true".

(** Items of a run: the options left at their defaults, the README
    example and the row that throws. *)
Definition no_options : ToonOptions :=
  {| option_delimiter := None; option_nestedSeparator := None;
     option_parseNumbers := None; option_parseBooleans := None |}.

Definition john_item : ToonItem :=
  {| toonInput := john_toon; outputFormat := lit "auto";
     options := no_options |}.

Definition clash_item : ToonItem :=
  {| toonInput := clash_toon; outputFormat := lit "auto";
     options := no_options |}.

(* ================================================================== *)
(** * Facts about the string primitives *)
(* ================================================================== *)

Lemma str_eqb_eq (s t : jsstring) : str_eqb s t = true <-> s = t.
Proof.
  revert t; induction s as [|c s IH]; intros [|c' t]; simpl;
    try (split; (reflexivity || discriminate)).
  rewrite andb_true_iff, N.eqb_eq, IH.
  split; [intros [-> ->]; reflexivity | intros H; inversion H; auto].
Qed.

Lemma str_eqb_refl (s : jsstring) : str_eqb s s = true.
Proof. apply str_eqb_eq; reflexivity. Qed.

Lemma str_eqb_neq (s t : jsstring) : s <> t -> str_eqb s t = false.
Proof.
  intros H; destruct (str_eqb s t) eqn:E; [|reflexivity].
  apply str_eqb_eq in E; contradiction.
Qed.

Lemma split_scan_not_nil (sep s : jsstring) (skip : nat) (cur : jsstring) :
  split_scan sep s skip cur <> [].
Proof.
  revert skip cur; induction s as [|c s IH]; intros skip cur;
    cbn [split_scan].
  - discriminate.
  - destruct skip; [|apply IH].
    destruct (startsWith (c :: s) sep); [discriminate | apply IH].
Qed.

Lemma split_newline_not_nil (s : jsstring) : split s [newline] <> [].
Proof. apply split_scan_not_nil. Qed.

Lemma trimStart_blank (s : jsstring) :
  forallb is_space s = true -> trimStart s = [].
Proof.
  induction s as [|c s IH]; simpl; [reflexivity|].
  rewrite andb_true_iff; intros [Hc Hs]; rewrite Hc; auto.
Qed.

Lemma trim_blank (s : jsstring) : forallb is_space s = true -> trim s = [].
Proof. intros H; unfold trim; rewrite trimStart_blank by assumption; reflexivity. Qed.

Lemma parseDelimitedLine_nil (delimiter : jsstring) :
  parseDelimitedLine [] delimiter = [[]].
Proof. reflexivity. Qed.

(* ================================================================== *)
(** * The decoder: output shaping, coercion, blank input, key synthesis *)
(* ================================================================== *)

Section DecoderFacts.
Context {host : Host}.

Lemma parseToon_unfold (toon delimiter nestedSeparator outputFormat : jsstring)
  (parseNumbers parseBooleans : bool) :
  parseToon toon delimiter nestedSeparator outputFormat parseNumbers
    parseBooleans =
  (records <- parse_records (split (trim toon) [newline]) delimiter
                nestedSeparator parseNumbers parseBooleans ;;
   Ok (shape_output outputFormat records)).
Proof.
  unfold parseToon.
  destruct (split (trim toon) [newline]) eqn:E; [|reflexivity].
  exfalso; exact (split_newline_not_nil _ E).
Qed.

(** C6.  Whatever rows the text decodes to, [array] returns the whole
    list of records, [object] the first record or the empty object when
    there is none, and [auto] the only record when there is exactly one
    and the whole list otherwise, the empty list included. *)
Theorem parseToon_output_shaping
  (toon delimiter nestedSeparator : jsstring)
  (parseNumbers parseBooleans : bool) (records : list object) :
  parse_records (split (trim toon) [newline]) delimiter nestedSeparator
    parseNumbers parseBooleans = Ok records ->
  parseToon toon delimiter nestedSeparator (lit "array") parseNumbers
    parseBooleans = Ok (VArr (map VObj records))
  /\ parseToon toon delimiter nestedSeparator (lit "object") parseNumbers
       parseBooleans
     = Ok (match records with record :: _ => VObj record | [] => VObj [] end)
  /\ parseToon toon delimiter nestedSeparator (lit "auto") parseNumbers
       parseBooleans
     = Ok (match records with
           | [record] => VObj record
           | _ => VArr (map VObj records)
           end).
Proof.
  intros H; rewrite !parseToon_unfold, H; simpl.
  repeat split; reflexivity.
Qed.

(** C8.  A text that is empty or all white space decodes without an
    error: to the empty object under [object], to the empty list under
    [array], and, as for any run without rows, to the empty list under
    [auto]. *)
Theorem parseToon_blank_text
  (text delimiter nestedSeparator : jsstring)
  (parseNumbers parseBooleans : bool) :
  forallb is_space text = true ->
  parseToon text delimiter nestedSeparator (lit "object") parseNumbers
    parseBooleans = Ok (VObj [])
  /\ parseToon text delimiter nestedSeparator (lit "array") parseNumbers
       parseBooleans = Ok (VArr [])
  /\ parseToon text delimiter nestedSeparator (lit "auto") parseNumbers
       parseBooleans = Ok (VArr [])
  /\ forall outputFormat,
       exists result,
         parseToon text delimiter nestedSeparator outputFormat parseNumbers
           parseBooleans = Ok result.
Proof.
  intros Hblank.
  assert (Hrec : parse_records (split (trim text) [newline]) delimiter
                   nestedSeparator parseNumbers parseBooleans = Ok []).
  { rewrite trim_blank by assumption. reflexivity. }
  repeat split; try (rewrite parseToon_unfold, Hrec; reflexivity).
  intros outputFormat; eexists.
  rewrite parseToon_unfold, Hrec; reflexivity.
Qed.

Lemma field_keys_length (values : list jsstring) :
  length (field_keys values) = length values.
Proof. unfold field_keys; rewrite length_map, length_seq; reflexivity. Qed.

Lemma field_keys_nth (values : list jsstring) (i : nat) :
  i < length values ->
  nth_error (field_keys values) i = Some (lit "field" ++ decimal (N.of_nat i)).
Proof.
  intros Hi; unfold field_keys.
  rewrite nth_error_map, nth_error_seq.
  apply Nat.ltb_lt in Hi; rewrite Hi; reflexivity.
Qed.

(** C9.  When the first line of the trimmed text does not start with
    [@schema], every line, the first included, is a data line, and the
    keys are [field0], [field1], ... : one per token of the first line
    under the active delimiter, numbered by position. *)
Theorem parseToon_schemaless_keys
  (toon delimiter nestedSeparator : jsstring)
  (parseNumbers parseBooleans : bool) :
  let lines := split (trim toon) [newline] in
  let tokens := parseDelimitedLine (hd [] lines) delimiter in
  startsWith (hd [] lines) (lit "@schema") = false ->
  exists keys,
    schema_and_data lines delimiter = (keys, lines)
    /\ length keys = length tokens
    /\ (forall i, i < length tokens ->
          nth_error keys i = Some (lit "field" ++ decimal (N.of_nat i)))
    /\ parse_records lines delimiter nestedSeparator parseNumbers
         parseBooleans
       = parse_rows keys lines delimiter nestedSeparator parseNumbers
           parseBooleans.
Proof.
  intros lines tokens Hno.
  exists (field_keys tokens).
  assert (E : schema_and_data lines delimiter = (field_keys tokens, lines)).
  { unfold schema_and_data; rewrite Hno; reflexivity. }
  split; [exact E|].
  split; [apply field_keys_length|].
  split; [intros i Hi; apply field_keys_nth; exact Hi|].
  unfold parse_records; rewrite E; reflexivity.
Qed.

End DecoderFacts.

(* ================================================================== *)
(** * Nested-key assignment *)
(* ================================================================== *)



(* ================================================================== *)
(** * The token-savings estimate *)
(* ================================================================== *)

Section Doubles.
Local Open Scope Z_scope.

Lemma digits2_pos_size (p : positive) : digits2_pos p = Pos.size p.
Proof. induction p; simpl; congruence. Qed.

Lemma digits2_pos_log2 (p : positive) :
  Zpos (digits2_pos p) = Z.log2 (Zpos p) + 1.
Proof. rewrite digits2_pos_size; destruct p; simpl; lia. Qed.

Lemma shr_1_m (mrs : shr_record) :
  0 <= shr_m mrs -> shr_m (shr_1 mrs) = Z.shiftr (shr_m mrs) 1.
Proof.
  rewrite <- Z.div2_spec.
  destruct mrs as [m r s]; simpl.
  destruct m as [|[p|p|]|p]; simpl; try reflexivity; lia.
Qed.

Lemma iter_shr_1_m (n : positive) (mrs : shr_record) :
  0 <= shr_m mrs ->
  shr_m (iter_pos shr_1 n mrs) = Z.shiftr (shr_m mrs) (Zpos n).
Proof.
  revert mrs; induction n as [n IH|n IH|]; intros mrs Hm; simpl.
  - assert (H1 : 0 <= shr_m (shr_1 mrs))
      by (rewrite shr_1_m by assumption; apply Z.shiftr_nonneg; assumption).
    assert (H2 : 0 <= shr_m (iter_pos shr_1 n (shr_1 mrs)))
      by (rewrite IH by assumption; apply Z.shiftr_nonneg; assumption).
    rewrite IH, IH, shr_1_m by assumption.
    rewrite !Z.shiftr_shiftr by lia. f_equal; lia.
  - assert (H1 : 0 <= shr_m (iter_pos shr_1 n mrs))
      by (rewrite IH by assumption; apply Z.shiftr_nonneg; assumption).
    rewrite IH, IH by assumption.
    rewrite !Z.shiftr_shiftr by lia. f_equal; lia.
  - apply shr_1_m; assumption.
Qed.

Lemma shr_record_of_loc_m (m : Z) (l : location) :
  shr_m (shr_record_of_loc m l) = m.
Proof. destruct l as [|[]]; reflexivity. Qed.

(** Shifting to the canonical exponent keeps a mantissa positive as
    long as the number lies above the subnormal range. *)
Lemma shr_fexp_positive (m : positive) (e : Z) (l : location) :
  -1074 < Zpos (digits2_pos m) + e ->
  exists m1,
    shr_m (fst (shr_fexp prec emax (Zpos m) e l)) = Zpos m1
    /\ Zpos (digits2_pos m1) + snd (shr_fexp prec emax (Zpos m) e l)
       = Zpos (digits2_pos m) + e.
Proof.
  intros Hlow; unfold shr_fexp, shr.
  set (n := fexp prec emax (Zdigits2 (Zpos m) + e) - e).
  assert (Hn : n < Zpos (digits2_pos m)).
  { unfold n, fexp, emin, prec, emax; simpl Zdigits2. lia. }
  destruct n as [|k|k] eqn:En; simpl fst; simpl snd;
    try (exists m; rewrite shr_record_of_loc_m; split; [reflexivity | lia]).
  rewrite iter_shr_1_m by (rewrite shr_record_of_loc_m; lia).
  rewrite shr_record_of_loc_m.
  rewrite digits2_pos_log2 in Hn.
  destruct (Z.shiftr (Zpos m) (Zpos k)) as [|m1|m1] eqn:Es.
  - apply Z.shiftr_eq_0_iff in Es; lia.
  - exists m1; split; [reflexivity|].
    rewrite !digits2_pos_log2, <- Es, Z.log2_shiftr by lia. lia.
  - assert (0 <= Z.shiftr (Zpos m) (Zpos k)) by (apply Z.shiftr_nonneg; lia).
    lia.
Qed.

Lemma round_nearest_even_positive (m : positive) (l : location) :
  exists m2, round_nearest_even (Zpos m) l = Zpos m2
             /\ Zpos (digits2_pos m) <= Zpos (digits2_pos m2).
Proof.
  assert (Hs : exists m2, Zpos m + 1 = Zpos m2
                          /\ Zpos (digits2_pos m) <= Zpos (digits2_pos m2)).
  { exists (m + 1)%positive; split; [lia|].
    rewrite !digits2_pos_log2.
    assert (Z.log2 (Zpos m) <= Z.log2 (Zpos (m + 1))) by (apply Z.log2_le_mono; lia).
    lia. }
  destruct l as [|[]]; cbn [round_nearest_even];
    try destruct (Z.even (Zpos m));
    try (exists m; split; [reflexivity | lia]); exact Hs.
Qed.

(** Rounding a positive mantissa above the subnormal range gives a
    non-zero number of the requested sign. *)
Lemma binary_round_aux_nonzero (sx : bool) (m : positive) (e : Z)
  (l : location) :
  -1074 < Zpos (digits2_pos m) + e ->
  (exists m' e', binary_round_aux prec emax sx (Zpos m) e l
                 = S754_finite sx m' e')
  \/ binary_round_aux prec emax sx (Zpos m) e l = S754_infinity sx.
Proof.
  intros Hlow; unfold binary_round_aux.
  destruct (shr_fexp_positive m e l Hlow) as (m1 & Hm1 & Hd1).
  destruct (shr_fexp prec emax (Zpos m) e l) as [mrs1 e1];
    simpl fst in *; simpl snd in *.
  rewrite Hm1.
  destruct (round_nearest_even_positive m1 (loc_of_shr_record mrs1))
    as (m2 & -> & Hd2).
  destruct (shr_fexp_positive m2 e1 loc_Exact ltac:(lia)) as (m3 & Hm3 & _).
  destruct (shr_fexp prec emax (Zpos m2) e1 loc_Exact) as [mrs2 e2];
    simpl fst in *.
  rewrite Hm3.
  destruct (e2 <=? emax - prec); [left; eauto | right; reflexivity].
Qed.

Lemma binary_round_nonzero (sx : bool) (p : positive) :
  (exists m' e', binary_round prec emax sx p 0 = S754_finite sx m' e')
  \/ binary_round prec emax sx p 0 = S754_infinity sx.
Proof.
  unfold binary_round, shl_align.
  set (ex := fexp prec emax (Zpos (digits2_pos p) + 0)).
  assert (Hex : -1074 <= ex) by (unfold ex, fexp, emin, prec, emax; lia).
  destruct (ex - 0) as [|d|d] eqn:Ed;
    apply binary_round_aux_nonzero; lia.
Qed.

Lemma of_Z_negative (p : positive) :
  fmul (fdiv (of_Z (Zneg p)) (S754_zero false)) (of_Z 100)
  = S754_infinity true.
Proof.
  unfold of_Z; simpl binary_normalize.
  destruct (binary_round_nonzero true p) as [(m & e & ->) | ->]; reflexivity.
Qed.

End Doubles.

Lemma decimal_digits_length (fuel : nat) (n : N) (acc : jsstring) :
  length acc <= length (decimal_digits fuel n acc).
Proof.
  revert n acc; induction fuel as [|fuel IH]; intros n acc; simpl; [lia|].
  destruct (n <? 10)%N; [simpl; lia|].
  etransitivity; [|apply IH]; simpl; lia.
Qed.

Lemma decimal_not_empty (n : N) : 1 <= length (decimal n).
Proof.
  unfold decimal; cbn [decimal_digits].
  destruct (n <? 10)%N; [simpl; lia|].
  etransitivity; [|apply decimal_digits_length]; simpl; lia.
Qed.

(** With one fraction digit the printed integer is cut before its last
    digit, and something stands before the point. *)
Lemma fixed_digits_one_decimal (n : Z) :
  exists whole c,
    fixed_digits n 1 = whole ++ lit "." ++ [c] /\ whole <> [].
Proof.
  unfold fixed_digits.
  set (m := repeat 48%N (2 - length (decimal (Z.to_N n)))
            ++ decimal (Z.to_N n)).
  assert (Hm : 2 <= length m).
  { unfold m; rewrite length_app, repeat_length.
    pose proof (decimal_not_empty (Z.to_N n)).
    unfold jsstring, char in *; lia. }
  assert (Hs : length (skipn (length m - 1) m) = 1)
    by (rewrite length_skipn; lia).
  assert (Hf : length (firstn (length m - 1) m) = length m - 1)
    by (rewrite length_firstn; lia).
  destruct (skipn (length m - 1) m) as [|c [|c' r]]; try discriminate.
  exists (firstn (length m - 1) m), c; split; [reflexivity|].
  intros E; rewrite E in Hf; simpl in Hf; lia.
Qed.

Lemma token_count_ceiling (s : jsstring) :
  (4 * (token_count s - 1) < Z.of_nat (length s) <= 4 * token_count s)%Z.
Proof.
  unfold token_count.
  pose proof (Z.div_mod (Z.of_nat (length s) + 3) 4 ltac:(lia)).
  pose proof (Z.mod_pos_bound (Z.of_nat (length s) + 3) 4 ltac:(lia)).
  lia.
Qed.

Section TokenSavings.
Context {host : Host}.

(** C5, as the code has it.  Each token count is the ceiling of a
    quarter of the length, and the reported figure is
    [(jsonTokens - toonTokens) / jsonTokens * 100] printed by
    [toFixed(1)]: a finite figure shows exactly one digit after the
    point.  Nothing guards a JSON string of length zero: the division
    by zero goes through, and the result reads NaN when the TOON string
    is empty too and -Infinity otherwise. *)
Theorem estimateTokenSavings_unguarded (jsonStr toonStr : jsstring) :
  (4 * (token_count jsonStr - 1) < Z.of_nat (length jsonStr)
   <= 4 * token_count jsonStr)%Z
  /\ (4 * (token_count toonStr - 1) < Z.of_nat (length toonStr)
      <= 4 * token_count toonStr)%Z
  /\ estimateTokenSavings jsonStr toonStr
     = lit "~"
       ++ toFixed (fmul (fdiv (of_Z (token_count jsonStr
                                     - token_count toonStr))
                              (of_Z (token_count jsonStr)))
                        (of_Z 100)) 1
       ++ lit "% token reduction"
  /\ (forall s m e,
        fmul (fdiv (of_Z (token_count jsonStr - token_count toonStr))
                   (of_Z (token_count jsonStr)))
             (of_Z 100) = S754_finite s m e ->
        at_least_1e21 m e = false ->
        exists whole c,
          whole <> []
          /\ estimateTokenSavings jsonStr toonStr
             = lit "~" ++ (if s then lit "-" else []) ++ whole ++ lit "."
               ++ [c] ++ lit "% token reduction")
  /\ estimateTokenSavings [] []
     = lit "~NaN% token reduction"
  /\ (toonStr <> [] ->
      estimateTokenSavings [] toonStr = lit "~-Infinity% token reduction").
Proof.
  split; [apply token_count_ceiling|].
  split; [apply token_count_ceiling|].
  split; [reflexivity|].
  split.
  { intros s m e Hsavings Hsmall; unfold estimateTokenSavings.
    rewrite Hsavings; cbn [toFixed]; rewrite Hsmall.
    destruct (fixed_digits_one_decimal (scaled_round m e 1))
      as (whole & c & -> & Hwhole).
    exists whole, c; split; [exact Hwhole|].
    rewrite <- !app_assoc; reflexivity. }
  split; [reflexivity|].
  intros Hne; unfold estimateTokenSavings.
  assert (Ht : (0 < token_count toonStr)%Z).
  { pose proof (token_count_ceiling toonStr).
    destruct toonStr; [contradiction | simpl length in *; lia]. }
  change (token_count []) with 0%Z.
  destruct (token_count toonStr) as [|t|t]; try lia.
  change (of_Z 0) with (S754_zero false).
  simpl Z.sub; rewrite (of_Z_negative t); reflexivity.
Qed.

End TokenSavings.

(* ================================================================== *)
(** * The tokenizer against [escapeValue] *)
(* ================================================================== *)

Lemma startsWith_nil (s : jsstring) : startsWith s [] = true.
Proof. destruct s; reflexivity. Qed.

Lemma includes_char (s : jsstring) (c : char) :
  includes s [c] = existsb (N.eqb c) s.
Proof.
  induction s as [|c' s IH]; [reflexivity|].
  cbn [includes startsWith existsb];
    rewrite IH, startsWith_nil, andb_true_r; reflexivity.
Qed.

Lemma includes_char_cons (s : jsstring) (c c' : char) :
  includes (c' :: s) [c] = N.eqb c c' || includes s [c].
Proof. rewrite !includes_char; reflexivity. Qed.

Lemma includes_char_app (s t : jsstring) (c : char) :
  includes (s ++ t) [c] = includes s [c] || includes t [c].
Proof. rewrite !includes_char; apply existsb_app. Qed.

Section Tokenizer.
Variable d : char.

(** Inside quotes the body of a quoted field is read back as it was,
    up to the closing quote, provided no quote follows that one. *)
Lemma loop_quoted_body (s rest : jsstring) (values : list jsstring)
  (current : jsstring) :
  hd_error rest <> Some quote ->
  parseDelimitedLine_loop [d] (double_quotes s ++ quote :: rest) values
    current true
  = parseDelimitedLine_loop [d] rest values (current ++ s) false.
Proof.
  intros Hrest; revert current; induction s as [|c s IH]; intros current.
  - rewrite app_nil_r; cbn [double_quotes flat_map app parseDelimitedLine_loop].
    rewrite N.eqb_refl.
    destruct rest as [|c' rest']; [reflexivity|].
    destruct (N.eqb c' quote) eqn:E; [|reflexivity].
    apply N.eqb_eq in E; subst c'; exfalso; apply Hrest; reflexivity.
  - unfold double_quotes; cbn [flat_map]; fold (double_quotes s).
    destruct (N.eqb c quote) eqn:E.
    + apply N.eqb_eq in E; subst c.
      cbn [app parseDelimitedLine_loop]; rewrite N.eqb_refl.
      cbn [andb]; rewrite IH, <- app_assoc; reflexivity.
    + cbn [app parseDelimitedLine_loop]; rewrite E.
      rewrite andb_false_r, IH, <- app_assoc; reflexivity.
Qed.

(** Outside quotes a run without quote or delimiter is appended. *)
Lemma loop_plain_run (s rest : jsstring) (values : list jsstring)
  (current : jsstring) :
  includes s [quote] = false ->
  includes s [d] = false ->
  parseDelimitedLine_loop [d] (s ++ rest) values current false
  = parseDelimitedLine_loop [d] rest values (current ++ s) false.
Proof.
  revert current; induction s as [|c s IH]; intros current Hq Hd.
  - rewrite app_nil_r; reflexivity.
  - rewrite includes_char_cons in Hq, Hd.
    apply orb_false_iff in Hq as [Hq1 Hq2].
    apply orb_false_iff in Hd as [Hd1 Hd2].
    cbn [app parseDelimitedLine_loop str_eqb].
    rewrite N.eqb_sym, Hq1, N.eqb_sym, Hd1.
    cbn [andb]; rewrite IH, <- app_assoc by assumption; reflexivity.
Qed.

(** One escaped field, whatever surrounds it on the right. *)
Lemma loop_escaped_field (s rest : jsstring) (values : list jsstring)
  (current : jsstring) :
  includes s [d] || includes s [newline] = true \/ includes s [quote] = false ->
  hd_error rest <> Some quote ->
  parseDelimitedLine_loop [d] (escapeValue s [d] ++ rest) values current false
  = parseDelimitedLine_loop [d] rest values (current ++ s) false.
Proof.
  intros Hs Hrest; unfold escapeValue.
  destruct (includes s [d] || includes s [newline]) eqn:E.
  - cbn [app parseDelimitedLine_loop]; rewrite N.eqb_refl.
    rewrite <- app_assoc.
    destruct (double_quotes s ++ [quote] ++ rest) as [|c' r] eqn:El.
    { destruct (double_quotes s); discriminate. }
    cbn [andb negb]; rewrite <- El.
    apply loop_quoted_body; assumption.
  - destruct Hs as [Hs|Hs]; [discriminate|].
    apply orb_false_iff in E as [E _].
    apply loop_plain_run; assumption.
Qed.

(** The tokenizer undoes [escapeValue] on every string that is quoted
    or holds no quote character. *)
Lemma parseDelimitedLine_escapeValue (s : jsstring) :
  includes s [d] || includes s [newline] = true \/ includes s [quote] = false ->
  parseDelimitedLine (escapeValue s [d]) [d] = [s].
Proof.
  intros Hs; unfold parseDelimitedLine.
  rewrite <- (app_nil_r (escapeValue s [d])).
  rewrite loop_escaped_field by (assumption || discriminate).
  reflexivity.
Qed.

(** A whole data line: escaped fields joined by the delimiter. *)
Lemma loop_joined_fields (t : jsstring) (ts : list jsstring)
  (values : list jsstring) :
  d <> quote ->
  Forall (fun s => includes s [d] || includes s [newline] = true
                   \/ includes s [quote] = false) (t :: ts) ->
  parseDelimitedLine_loop [d]
    (join [d] (map (fun s => escapeValue s [d]) (t :: ts))) values [] false
  = values ++ t :: ts.
Proof.
  intros Hd; revert t values; induction ts as [|t' ts IH];
    intros t values Hall; inversion Hall as [|? ? Ht Hts]; subst.
  - cbn [map join].
    rewrite <- (app_nil_r (escapeValue t [d])).
    rewrite loop_escaped_field by (assumption || discriminate).
    reflexivity.
  - change (join [d] (map (fun s => escapeValue s [d]) (t :: t' :: ts)))
      with (escapeValue t [d] ++ [d] ++
            join [d] (map (fun s => escapeValue s [d]) (t' :: ts))).
    rewrite loop_escaped_field;
      [|assumption|cbn; congruence].
    cbn [app parseDelimitedLine_loop str_eqb].
    destruct (N.eqb d quote) eqn:E; [apply N.eqb_eq in E; contradiction|].
    rewrite N.eqb_refl; cbn [andb negb].
    rewrite IH by assumption.
    rewrite <- app_assoc; reflexivity.
Qed.

End Tokenizer.

(* ================================================================== *)
(** * Own properties *)
(* ================================================================== *)

Ltac str_cases k k' E :=
  destruct (str_eqb k k') eqn:E;
  [apply str_eqb_eq in E; try subst | ].

Lemma str_eqb_sym (s t : jsstring) : str_eqb s t = str_eqb t s.
Proof.
  destruct (str_eqb s t) eqn:E.
  - apply str_eqb_eq in E; subst; symmetry; apply str_eqb_refl.
  - destruct (str_eqb t s) eqn:E'; [|reflexivity].
    apply str_eqb_eq in E'; subst; rewrite str_eqb_refl in E; discriminate.
Qed.

Lemma own_get_not_in (k : jsstring) (o : object) :
  ~ In k (map fst o) -> own_get k o = None.
Proof.
  induction o as [|[k' v] o IH]; simpl; [reflexivity|]; intros Hin.
  str_cases k k' E; [exfalso; apply Hin; left; reflexivity|].
  apply IH; intros H; apply Hin; right; exact H.
Qed.

Lemma own_get_in (k : jsstring) (o : object) :
  In k (map fst o) -> exists v, own_get k o = Some v.
Proof.
  induction o as [|[k' v] o IH]; simpl; [contradiction|]; intros Hin.
  str_cases k k' E; [eauto|].
  destruct Hin as [->|Hin]; [rewrite str_eqb_refl in E; discriminate|auto].
Qed.

Lemma has_own_false (k : jsstring) (o : object) :
  has_own k o = false <-> ~ In k (map fst o).
Proof.
  unfold has_own; split.
  - intros H Hin; apply own_get_in in Hin as [v Hv]; rewrite Hv in H;
      discriminate.
  - intros H; rewrite own_get_not_in by assumption; reflexivity.
Qed.

Lemma has_own_keys (k : jsstring) (o o' : object) :
  map fst o = map fst o' -> has_own k o = has_own k o'.
Proof.
  intros H.
  destruct (has_own k o') eqn:E'.
  - destruct (has_own k o) eqn:E; [reflexivity|].
    apply has_own_false in E; rewrite H in E; apply has_own_false in E.
    congruence.
  - apply has_own_false; rewrite H; apply has_own_false; exact E'.
Qed.

Lemma own_update_keys (k : jsstring) (v : jsvalue) (o : object) :
  map fst (own_update k v o) = map fst o.
Proof.
  induction o as [|[k' v'] o IH]; simpl; [reflexivity|].
  destruct (str_eqb k k'); simpl; congruence.
Qed.

Lemma own_insert_index_keys (n : N) (k : jsstring) (v v' : jsvalue)
  (o o' : object) :
  map fst o = map fst o' ->
  map fst (own_insert_index n k v o) = map fst (own_insert_index n k v' o').
Proof.
  revert o'; induction o as [|[k1 v1] o IH]; intros [|[k2 v2] o'] H;
    simpl in H; try discriminate; [reflexivity|].
  inversion H; subst; simpl.
  destruct (array_index k2) as [m|]; [|simpl; congruence].
  destruct (m <? n)%N; simpl; [rewrite (IH o') by assumption|]; congruence.
Qed.

(** The order of the keys after a definition depends on the keys only. *)
Lemma own_set_keys (k : jsstring) (v v' : jsvalue) (o o' : object) :
  map fst o = map fst o' ->
  map fst (own_set k v o) = map fst (own_set k v' o').
Proof.
  intros H; unfold own_set; rewrite (has_own_keys k o o' H).
  destruct (has_own k o').
  - rewrite !own_update_keys; exact H.
  - destruct (array_index k) as [n|].
    + apply own_insert_index_keys; exact H.
    + rewrite !map_app, H; reflexivity.
Qed.

Lemma own_get_update (k k' : jsstring) (v : jsvalue) (o : object) :
  has_own k o = true ->
  own_get k' (own_update k v o)
  = if str_eqb k' k then Some v else own_get k' o.
Proof.
  unfold has_own; induction o as [|[k1 v1] o IH]; simpl; [discriminate|].
  str_cases k k1 E.
  - intros _; simpl. destruct (str_eqb k' k1); reflexivity.
  - intros H; simpl. str_cases k' k1 E1.
    + rewrite str_eqb_sym, E; reflexivity.
    + apply IH; exact H.
Qed.

Lemma own_get_insert_index (n : N) (k k' : jsstring) (v : jsvalue)
  (o : object) :
  has_own k o = false ->
  own_get k' (own_insert_index n k v o)
  = if str_eqb k' k then Some v else own_get k' o.
Proof.
  unfold has_own; induction o as [|[k1 v1] o IH]; simpl.
  - reflexivity.
  - str_cases k k1 E; [discriminate|]; intros H.
    destruct (array_index k1) as [m|]; [destruct (m <? n)%N|]; simpl;
      try reflexivity.
    str_cases k' k1 E1.
    + rewrite str_eqb_sym, E; reflexivity.
    + apply IH; exact H.
Qed.

Lemma own_get_app (k k' : jsstring) (v : jsvalue) (o : object) :
  has_own k o = false ->
  own_get k' (o ++ [(k, v)])
  = if str_eqb k' k then Some v else own_get k' o.
Proof.
  unfold has_own; induction o as [|[k1 v1] o IH]; simpl.
  - reflexivity.
  - str_cases k k1 E; [discriminate|]; intros H.
    str_cases k' k1 E1.
    + rewrite str_eqb_sym, E; reflexivity.
    + apply IH; exact H.
Qed.

Lemma own_get_own_set (k k' : jsstring) (v : jsvalue) (o : object) :
  own_get k' (own_set k v o)
  = if str_eqb k' k then Some v else own_get k' o.
Proof.
  unfold own_set; destruct (has_own k o) eqn:E.
  - apply own_get_update; exact E.
  - destruct (array_index k).
    + apply own_get_insert_index; exact E.
    + apply own_get_app; exact E.
Qed.

(** Two property lists with the same keys, without repetition, and the
    same values under each key are the same list. *)
Lemma object_ext (o o' : object) :
  map fst o = map fst o' ->
  NoDup (map fst o') ->
  (forall k v, In (k, v) o' -> own_get k o = Some v) ->
  o = o'.
Proof.
  revert o'; induction o as [|[k v] o IH]; intros [|[k' v'] o'] Hk Hnd Hget;
    simpl in Hk; try discriminate; [reflexivity|].
  inversion Hk; subst k'; inversion Hnd as [|? ? Hnotin Hnd']; subst.
  assert (Hv : Some v = Some v').
  { rewrite <- (Hget k v') by (left; reflexivity).
    simpl; rewrite str_eqb_refl; reflexivity. }
  inversion Hv; subst v'; f_equal.
  apply IH; try assumption.
  intros k1 v1 Hin.
  specialize (Hget k1 v1 (or_intror Hin)); simpl in Hget.
  str_cases k1 k E; [|exact Hget].
  exfalso; apply Hnotin; apply in_map_iff; exists (k, v1); auto.
Qed.

Lemma define_all_keys (kvs o o' : object) :
  map fst o = map fst o' ->
  map fst (define_all kvs o)
  = map fst (fold_left (fun o k => own_set k VUndefined o) (map fst kvs) o').
Proof.
  revert o o'; induction kvs as [|[k v] kvs IH]; intros o o' H; simpl.
  - exact H.
  - apply IH, own_set_keys; exact H.
Qed.

Lemma define_all_get_other (kvs o : object) (k : jsstring) :
  ~ In k (map fst kvs) -> own_get k (define_all kvs o) = own_get k o.
Proof.
  revert o; induction kvs as [|[k1 v1] kvs IH]; intros o Hin; simpl.
  - reflexivity.
  - simpl in Hin; unfold define_all in IH; rewrite IH by tauto.
    rewrite own_get_own_set.
    str_cases k k1 E; [exfalso; apply Hin; left; reflexivity | reflexivity].
Qed.

Lemma define_all_get (kvs o : object) (k : jsstring) (v : jsvalue) :
  NoDup (map fst kvs) -> In (k, v) kvs ->
  own_get k (define_all kvs o) = Some v.
Proof.
  revert o; induction kvs as [|[k1 v1] kvs IH]; intros o Hnd Hin;
    [contradiction|].
  simpl in Hnd; inversion Hnd as [|? ? Hnotin Hnd']; subst.
  destruct Hin as [Heq|Hin]; simpl.
  - inversion Heq; subst.
    fold (define_all kvs (own_set k v o)).
    rewrite define_all_get_other by assumption.
    rewrite own_get_own_set, str_eqb_refl; reflexivity.
  - apply IH; assumption.
Qed.

(** Defining the properties of a list in property order on an empty
    object gives that list back. *)
Lemma define_all_property_order (kvs : object) :
  NoDup (map fst kvs) -> property_order (map fst kvs) ->
  define_all kvs [] = kvs.
Proof.
  intros Hnd Hord; apply object_ext.
  - rewrite (define_all_keys kvs [] []) by reflexivity; exact Hord.
  - exact Hnd.
  - intros k v Hin; apply define_all_get; assumption.
Qed.

Lemma Put_own_set (o : object) (k : jsstring) (v : jsvalue) :
  k <> proto_key -> Put o k v = Ok (own_set k v o).
Proof.
  intros Hk; unfold Put, own_set.
  destruct (has_own k o); [reflexivity|].
  rewrite str_eqb_neq by assumption; reflexivity.
Qed.

(* ================================================================== *)
(** * Lines, fields and trimming *)
(* ================================================================== *)

Lemma startsWith_app (p r : jsstring) : startsWith (p ++ r) p = true.
Proof.
  induction p as [|c p IH]; [apply startsWith_nil|].
  cbn [app startsWith]; rewrite N.eqb_refl, IH; reflexivity.
Qed.

Lemma remove_first_unfold (s p : jsstring) :
  remove_first s p
  = if startsWith s p then skipn (length p) s
    else match s with
         | [] => []
         | c :: s' => c :: remove_first s' p
         end.
Proof. destruct s; reflexivity. Qed.

Lemma remove_first_prefix (p r : jsstring) : remove_first (p ++ r) p = r.
Proof.
  rewrite remove_first_unfold, startsWith_app.
  induction p; [reflexivity | assumption].
Qed.

Lemma split_char_none (c : char) (s cur : jsstring) :
  includes s [c] = false -> split_scan [c] s 0 cur = [cur ++ s].
Proof.
  revert cur; induction s as [|c' s IH]; intros cur H.
  - rewrite app_nil_r; reflexivity.
  - rewrite includes_char_cons in H; apply orb_false_iff in H as [H1 H2].
    cbn [split_scan startsWith]; rewrite H1; cbn [andb].
    rewrite IH, <- app_assoc by assumption; reflexivity.
Qed.

Lemma split_char_first (c : char) (a b cur : jsstring) :
  includes a [c] = false ->
  split_scan [c] (a ++ c :: b) 0 cur = (cur ++ a) :: split_scan [c] b 0 [].
Proof.
  revert cur; induction a as [|c' a IH]; intros cur H.
  - rewrite app_nil_r; cbn [app split_scan startsWith].
    rewrite N.eqb_refl, startsWith_nil; reflexivity.
  - rewrite includes_char_cons in H; apply orb_false_iff in H as [H1 H2].
    cbn [app split_scan startsWith]; rewrite H1; cbn [andb].
    rewrite IH, <- app_assoc by assumption; reflexivity.
Qed.

Lemma includes_join (c d : char) (ks : list jsstring) :
  c <> d ->
  Forall (fun k => includes k [c] = false) ks ->
  includes (join [d] ks) [c] = false.
Proof.
  intros Hcd; induction 1 as [|k ks Hk Hks IH]; [reflexivity|].
  destruct ks as [|k' ks]; [exact Hk|].
  change (join [d] (k :: k' :: ks)) with (k ++ [d] ++ join [d] (k' :: ks)).
  rewrite !includes_char_app, Hk, IH, includes_char; cbn [existsb].
  apply N.eqb_neq in Hcd; rewrite Hcd; reflexivity.
Qed.

Lemma split_join (d : char) (k : jsstring) (ks : list jsstring) :
  Forall (fun k => includes k [d] = false) (k :: ks) ->
  split (join [d] (k :: ks)) [d] = k :: ks.
Proof.
  unfold split; revert k; induction ks as [|k' ks IH]; intros k H;
    inversion H as [|? ? Hk Hks]; subst.
  - cbn [join]; rewrite split_char_none by assumption; reflexivity.
  - change (join [d] (k :: k' :: ks)) with (k ++ d :: join [d] (k' :: ks)).
    rewrite split_char_first by assumption.
    rewrite IH by assumption; reflexivity.
Qed.

Lemma includes_double_quotes (s : jsstring) (c : char) :
  c <> quote -> includes (double_quotes s) [c] = includes s [c].
Proof.
  intros Hc; apply N.eqb_neq in Hc.
  induction s as [|c' s IH]; [reflexivity|].
  unfold double_quotes; cbn [flat_map]; fold (double_quotes s).
  rewrite includes_char_app, IH, includes_char_cons.
  destruct (N.eqb c' quote) eqn:E.
  - apply N.eqb_eq in E; subst c'.
    rewrite !includes_char; cbn [existsb]; rewrite Hc; reflexivity.
  - rewrite includes_char; cbn [existsb]; rewrite orb_false_r; reflexivity.
Qed.

Lemma includes_escapeValue (s : jsstring) (c d : char) :
  c <> quote -> includes s [c] = false ->
  includes (escapeValue s [d]) [c] = false.
Proof.
  intros Hc Hs; unfold escapeValue.
  destruct (includes s [d] || includes s [newline]); [|exact Hs].
  rewrite !includes_char_app, includes_double_quotes, Hs by assumption.
  rewrite includes_char; cbn [existsb].
  apply N.eqb_neq in Hc; rewrite Hc; reflexivity.
Qed.

Lemma trimEnd_ink (line : jsstring) : ends_in_ink line -> trimEnd line = line.
Proof.
  intros (body & c & -> & Hc); unfold trimEnd.
  rewrite rev_app_distr; cbn [rev app trimStart]; rewrite Hc.
  change (c :: rev body) with (rev [c] ++ rev body).
  rewrite <- rev_app_distr, rev_involutive; reflexivity.
Qed.

Lemma trimStart_ends_in_ink (line : jsstring) :
  ends_in_ink line -> ends_in_ink (trimStart line).
Proof.
  intros (body & c & -> & Hc).
  induction body as [|c' body IH]; cbn [app trimStart].
  - rewrite Hc; exists [], c; auto.
  - destruct (is_space c'); [exact IH|].
    exists (c' :: body), c; auto.
Qed.

Lemma trim_ink_not_empty (line : jsstring) :
  ends_in_ink line -> is_empty (trim line) = false.
Proof.
  intros H; unfold trim.
  rewrite trimEnd_ink by (apply trimStart_ends_in_ink; exact H).
  destruct (trimStart_ends_in_ink H) as (body & c & -> & _).
  destruct body; reflexivity.
Qed.

Lemma ends_in_ink_app (s line : jsstring) :
  ends_in_ink line -> ends_in_ink (s ++ line).
Proof.
  intros (body & c & -> & Hc); exists (s ++ body), c.
  rewrite app_assoc; auto.
Qed.

Lemma mapM_length {A B} (f : A -> outcome B) (l : list A) (r : list B) :
  mapM f l = Ok r -> length r = length l.
Proof.
  revert r; induction l as [|a l IH]; intros r; simpl.
  - intros H; inversion H; reflexivity.
  - destruct (f a); simpl; try discriminate.
    destruct (mapM f l); simpl; try discriminate.
    intros H; inversion H; simpl; f_equal; apply IH; reflexivity.
Qed.

Lemma mapM_then_map {A B C} (f : A -> outcome B) (g : B -> C) (l : list A)
  (r : list B) :
  mapM f l = Ok r ->
  mapM (fun a => b <- f a ;; Ok (g b)) l = Ok (map g r).
Proof.
  revert r; induction l as [|a l IH]; intros r; simpl.
  - intros H; inversion H; reflexivity.
  - destruct (f a); simpl; try discriminate.
    destruct (mapM f l) as [bs| |]; simpl; try discriminate.
    intros H; inversion H; subst; rewrite (IH bs) by reflexivity; reflexivity.
Qed.

(* ================================================================== *)
(** * Object mode there and back *)
(* ================================================================== *)

Section RoundTrip.
Context {host : Host}.
Variable d : char.
Variable separator : jsstring.
Variables parseNumbers parseBooleans : bool.

Lemma flatten_entries_flat
  (child : jsvalue -> jsstring -> outcome object) (entries result : object) :
  Forall (fun k => k <> proto_key) (map fst entries) ->
  Forall (fun v => is_object v = false) (map snd entries) ->
  flatten_entries child [] separator entries result
  = (flat <- mapM flat_entry entries ;; Ok (define_all flat result)).
Proof.
  revert result; induction entries as [|[key value] entries IH];
    intros result Hk Hv; [reflexivity|].
  simpl in Hk, Hv; inversion Hk; inversion Hv; subst.
  cbn [flatten_entries mapM is_empty].
  destruct value as [| | | | |elems|]; try discriminate;
    unfold flat_entry at 1; cbn [fst snd bind];
    try (rewrite Put_own_set by assumption; cbn [bind];
         rewrite IH by assumption;
         destruct (mapM flat_entry entries); reflexivity).
  destruct (array_join elems); cbn [bind]; try reflexivity.
  rewrite Put_own_set by assumption; cbn [bind].
  rewrite IH by assumption.
  destruct (mapM flat_entry entries); reflexivity.
Qed.

Lemma flat_entry_texts (obj : object) (texts : list jsstring) :
  Forall (fun v => is_object v = false) (map snd obj) ->
  mapM String_or_empty (map snd obj) = Ok texts ->
  exists flat,
    mapM flat_entry obj = Ok flat
    /\ map fst flat = map fst obj
    /\ mapM String_or_empty (map snd flat) = Ok texts.
Proof.
  revert texts; induction obj as [|[k v] obj IH]; intros texts Hv Ht.
  - exists []; auto.
  - simpl in Hv; inversion Hv as [|? ? Hv1 Hv2]; subst.
    cbn [map snd mapM] in Ht.
    destruct (String_or_empty v) as [t| |] eqn:Et; try discriminate.
    cbn [bind] in Ht.
    destruct (mapM String_or_empty (map snd obj)) as [ts| |] eqn:Ets;
      try discriminate.
    cbn [bind] in Ht; inversion Ht; subst texts.
    destruct (IH ts Hv2 eq_refl) as (flat & Hflat & Hkeys & Htexts).
    assert (He : exists v', flat_entry (k, v) = Ok (k, v')
                            /\ String_or_empty v' = Ok t).
    { unfold flat_entry; cbn [fst snd].
      destruct v; try discriminate; try (eexists; split; [reflexivity|exact Et]).
      unfold array_join; cbn [String_or_empty] in Et; rewrite Et.
      eexists; split; reflexivity. }
    destruct He as (v' & He & Hv').
    exists ((k, v') :: flat); cbn [mapM map fst snd].
    rewrite He, Hflat, Hkeys, Hv', Htexts; auto.
Qed.

Lemma fill_record_plain (keys : list jsstring) (pre texts : list jsstring)
  (record : object) :
  length keys = length texts ->
  Forall (plain_key d separator) keys ->
  fill_record keys (length pre) (pre ++ texts) separator parseNumbers
    parseBooleans record
  = Ok (define_all
          (combine keys (map (coerce parseNumbers parseBooleans) texts))
          record).
Proof.
  revert pre texts record; induction keys as [|key keys IH];
    intros pre [|t texts] record Hlen Hk; try discriminate; [reflexivity|].
  inversion Hk as [|? ? (_ & _ & Hsplit & Hproto) Hk']; subst.
  cbn [fill_record].
  rewrite nth_error_app2, Nat.sub_diag by lia; cbn [nth_error].
  unfold setNestedValue; rewrite Hsplit; cbn [setNestedValue_walk].
  rewrite Put_own_set by assumption; cbn [bind].
  replace (S (length pre)) with (length (pre ++ [t]))
    by (rewrite length_app; simpl; lia).
  replace (pre ++ t :: texts) with ((pre ++ [t]) ++ texts)
    by (rewrite <- app_assoc; reflexivity).
  rewrite IH by (simpl in Hlen; auto; lia); reflexivity.
Qed.

Lemma trimStart_head_ink (c : char) (s : jsstring) :
  is_space c = false -> trimStart (c :: s) = c :: s.
Proof. intros H; cbn [trimStart]; rewrite H; reflexivity. Qed.

Lemma trimEnd_snoc_space (c : char) (s : jsstring) :
  is_space c = true -> trimEnd (s ++ [c]) = trimEnd s.
Proof.
  intros H; unfold trimEnd.
  rewrite rev_app_distr; cbn [rev app trimStart]; rewrite H; reflexivity.
Qed.

Lemma map_fst_combine {A B} (l : list A) (l' : list B) :
  length l = length l' -> map fst (combine l l') = l.
Proof.
  revert l'; induction l as [|a l IH]; intros [|b l'] H; simpl in *;
    try discriminate; [reflexivity|].
  f_equal; apply IH; lia.
Qed.

(** The document of an empty object holds the schema line alone and
    decodes to no record. *)
Lemma empty_object_records :
  d <> newline ->
  parse_records
    (split (trim (schema_line [d] [] ++ [])) [newline]) [d] separator
    parseNumbers parseBooleans
  = Ok [].
Proof.
  intros Hd.
  assert (Ht : exists tail,
             trim (schema_line [d] [] ++ []) = lit "@schema" ++ tail
             /\ includes tail [newline] = false).
  { unfold schema_line, trim; cbn [join app].
    rewrite app_nil_r.
    change (lit "@schema" ++ [d; newline])
      with (64%N :: (lit "schema" ++ [d; newline])).
    rewrite trimStart_head_ink by reflexivity.
    change (64%N :: (lit "schema" ++ [d; newline]))
      with ((lit "@schema" ++ [d]) ++ [newline]).
    rewrite trimEnd_snoc_space by reflexivity.
    destruct (is_space d) eqn:Es.
    - rewrite trimEnd_snoc_space by assumption.
      exists []; split; reflexivity.
    - rewrite trimEnd_ink by (exists (lit "@schema"), d; auto).
      exists [d]; split; [reflexivity|].
      rewrite includes_char; cbn [existsb].
      apply not_eq_sym, N.eqb_neq in Hd; rewrite Hd; reflexivity. }
  destruct Ht as (tail & -> & Htail).
  unfold split; rewrite split_char_none
    by (rewrite includes_char_app, Htail; reflexivity).
  unfold parse_records, schema_and_data; cbn [hd tl app].
  rewrite startsWith_app; reflexivity.
Qed.

(** C1, within the reach of the format.  Take an object in property
    order whose keys are unique, free of the delimiter and of newlines,
    single segments under the nested separator and not [__proto__];
    whose values are primitives or arrays; whose field texts (the
    joined elements of an array, the string form of a primitive, empty
    for [null] and [undefined]) are free of newlines and hold a quote
    only together with the delimiter; and whose data line is either
    absent (the empty object) or ends in a code unit that is not white
    space.  With a one-character delimiter other than the quote and the
    newline, and the schema line included, decoding the encoded
    document in object mode gives every key, in order, the coerced form
    of its field text. *)
Theorem object_round_trip (obj : object) (texts : list jsstring) :
  d <> quote ->
  d <> newline ->
  NoDup (map fst obj) ->
  property_order (map fst obj) ->
  Forall (plain_key d separator) (map fst obj) ->
  Forall (fun v => is_object v = false) (map snd obj) ->
  mapM String_or_empty (map snd obj) = Ok texts ->
  Forall (plain_text d) texts ->
  obj = [] \/
  ends_in_ink (join [d] (map (fun s => escapeValue s [d]) texts)) ->
  exists toon,
    convertObjectToToon obj [d] separator true = Ok toon
    /\ parseToon toon [d] separator (lit "object") parseNumbers
         parseBooleans
       = Ok (VObj (combine (map fst obj)
                     (map (coerce parseNumbers parseBooleans) texts))).
Proof.
  intros Hdq Hdn Hnd Hord Hkeys Hflat Htexts Hplain Hline.
  pose proof (mapM_length _ _ Htexts) as Hlen; rewrite length_map in Hlen.
  destruct (flat_entry_texts obj Hflat Htexts) as (flat & Hf & Hfk & Hft).
  assert (Hproto : Forall (fun k => k <> proto_key) (map fst obj)).
  { eapply Forall_impl; [|exact Hkeys]. intros k (_ & _ & _ & H); exact H. }
  assert (Henc : convertObjectToToon obj [d] separator true
                 = Ok (schema_line [d] (map fst obj)
                       ++ join [d] (map (fun s => escapeValue s [d]) texts))).
  { unfold convertObjectToToon, flattenObject; cbn [flattenObject_value].
    rewrite flatten_entries_flat, Hf by assumption; cbn [bind].
    rewrite define_all_property_order by (rewrite Hfk; assumption).
    rewrite (mapM_then_map _ (fun s => escapeValue s [d]) _ Hft).
    cbn [bind]; rewrite Hfk; reflexivity. }
  eexists; split; [exact Henc|].
  rewrite parseToon_unfold.
  destruct Hline as [-> | Hink].
  - cbn [map mapM] in Htexts; inversion Htexts; subst texts.
    cbn [map join combine].
    rewrite empty_object_records by assumption; reflexivity.
  - set (line := join [d] (map (fun s => escapeValue s [d]) texts)) in *.
    destruct obj as [|[k v] obj']; [|clear Hf].
    { destruct texts; [|discriminate].
      destruct Hink as (body & c & Hb & _); destruct body; discriminate. }
    destruct texts as [|t ts]; [discriminate|].
    set (keys := map fst ((k, v) :: obj')) in *.
    assert (Hline_nl : includes line [newline] = false).
    { apply includes_join; [auto|].
      apply Forall_map; eapply Forall_impl; [|exact Hplain].
      intros s (Hs & _); apply includes_escapeValue; [discriminate | exact Hs]. }
    assert (Hschema_nl :
              includes (lit "@schema" ++ [d] ++ join [d] keys) [newline]
              = false).
    { rewrite !includes_char_app, (includes_char [d] newline).
      cbn [existsb].
      rewrite includes_join;
        [|auto|eapply Forall_impl; [|exact Hkeys];
               intros s (_ & H & _); exact H].
      apply not_eq_sym, N.eqb_neq in Hdn; rewrite Hdn; reflexivity. }
    assert (Htrim :
              trim (schema_line [d] keys ++ line)
              = (lit "@schema" ++ [d] ++ join [d] keys) ++ newline :: line).
    { unfold schema_line, trim.
      rewrite <- !app_assoc.
      change (lit "@schema" ++ [d] ++ join [d] keys ++ [newline] ++ line)
        with (64%N :: (lit "schema" ++ [d] ++ join [d] keys ++ [newline]
                       ++ line)).
      rewrite trimStart_head_ink by reflexivity.
      apply trimEnd_ink.
      change (ends_in_ink (lit "@schema" ++ [d] ++ join [d] keys
                           ++ [newline] ++ line)).
      do 4 apply ends_in_ink_app; exact Hink. }
    rewrite Htrim; unfold split.
    rewrite split_char_first, split_char_none by assumption.
    rewrite !app_nil_l; unfold parse_records, schema_and_data; cbn [hd tl].
    rewrite startsWith_app.
    replace (lit "@schema" ++ [d] ++ join [d] keys)
      with ((lit "@schema" ++ [d]) ++ join [d] keys)
      by (rewrite <- app_assoc; reflexivity).
    rewrite remove_first_prefix.
    unfold keys at 1; cbn [map fst]; rewrite split_join;
      [|eapply Forall_impl; [|exact Hkeys]; intros s (H & _); exact H].
    fold keys; cbn [parse_rows].
    rewrite trim_ink_not_empty by assumption.
    unfold parseDelimitedLine, line.
    rewrite (@loop_joined_fields d t ts []);
      [|assumption|
       eapply Forall_impl; [|exact Hplain];
       intros s (_ & [H|H]); [left; rewrite H; reflexivity | right; exact H]].
    cbn [app].
    assert (Hfill := @fill_record_plain keys [] (t :: ts) []).
    cbn [length app] in Hfill.
    change (k :: map fst obj') with keys.
    rewrite Hfill by (assumption || (unfold keys; rewrite length_map; auto)).
    cbn [bind shape_output].
    rewrite define_all_property_order;
      [reflexivity | |];
      rewrite map_fst_combine
        by (unfold keys; rewrite !length_map; auto); assumption.
Qed.

End RoundTrip.

(* ================================================================== *)
(** * Array mode *)
(* ================================================================== *)

Section ArrayMode.
Context {host : Host}.

(** The key list is that of the first element; every element is
    printed through it. *)
Lemma convertArrayToToon_rows (firstItem : object) (rest : list object)
  (delimiter : jsstring) (includeSchema : bool) :
  convertArrayToToon (firstItem :: rest) delimiter includeSchema
  = (rows <- mapM (array_row (map fst firstItem) delimiter)
               (firstItem :: rest) ;;
     Ok (trim ((if includeSchema
                then schema_line delimiter (map fst firstItem) else [])
               ++ concat rows))).
Proof. reflexivity. Qed.

(** A key that the record neither owns nor inherits prints as the empty
    field, and so does an own [null] or [undefined]. *)
Lemma absent_field_is_empty (record : object) (key delimiter : jsstring) :
  own_get key record = None ->
  key <> proto_key ->
  builtin_name key = None ->
  (s <- String_of_slot (Get record key) ;; Ok (escapeValue s delimiter))
  = Ok (escapeValue [] delimiter).
Proof.
  intros Hown Hproto Hbuiltin; unfold Get.
  rewrite Hown, (str_eqb_neq Hproto), Hbuiltin; reflexivity.
Qed.

Lemma nullish_field_is_empty (record : object) (key delimiter : jsstring) :
  own_get key record = Some VUndefined \/ own_get key record = Some VNull ->
  (s <- String_of_slot (Get record key) ;; Ok (escapeValue s delimiter))
  = Ok (escapeValue [] delimiter).
Proof. unfold Get; intros [-> | ->]; reflexivity. Qed.

End ArrayMode.

(* ================================================================== *)
(** * Flattening *)
(* ================================================================== *)

(** Induction on a value through the properties of its objects. *)
Lemma jsvalue_object_ind (P : jsvalue -> Prop) :
  (forall v, is_object v = false -> P v) ->
  (forall o, Forall (fun kv => P (snd kv)) o -> P (VObj o)) ->
  forall v, P v.
Proof.
  intros Hleaf Hobj; fix IH 1.
  intros [ | | b | n | s | l | o]; try (apply Hleaf; reflexivity).
  apply Hobj.
  induction o as [|[k v] o IHo]; constructor; [apply IH | exact IHo].
Qed.

Lemma Forall_own_update (P : jsstring * jsvalue -> Prop) (k : jsstring)
  (v : jsvalue) (o : object) :
  (forall k', P (k', v)) \/ P (k, v) ->
  Forall P o -> Forall P (own_update k v o).
Proof.
  intros Hv; induction 1 as [|[k' v'] o Hkv Ho IH]; simpl; [constructor|].
  destruct (str_eqb k k') eqn:E; constructor; auto.
  apply str_eqb_eq in E; subst k'; destruct Hv as [Hv|Hv]; auto.
Qed.

Lemma Forall_own_insert_index (P : jsstring * jsvalue -> Prop) (n : N)
  (k : jsstring) (v : jsvalue) (o : object) :
  P (k, v) -> Forall P o -> Forall P (own_insert_index n k v o).
Proof.
  intros Hv; induction 1 as [|[k' v'] o Hkv Ho IH]; simpl.
  - constructor; auto.
  - destruct (array_index k') as [m|]; [destruct (m <? n)%N|];
      repeat constructor; auto.
Qed.

Lemma Forall_own_set (P : jsstring * jsvalue -> Prop) (k : jsstring)
  (v : jsvalue) (o : object) :
  P (k, v) -> Forall P o -> Forall P (own_set k v o).
Proof.
  intros Hv Ho; unfold own_set.
  destruct (has_own k o).
  - apply Forall_own_update; auto.
  - destruct (array_index k).
    + apply Forall_own_insert_index; auto.
    + apply Forall_app; split; [exact Ho | repeat constructor; exact Hv].
Qed.

(** An assignment keeps what holds of every property and of the new
    one. *)
Lemma Forall_Put (P : jsstring * jsvalue -> Prop) (o o' : object)
  (k : jsstring) (v : jsvalue) :
  P (k, v) -> Forall P o -> Put o k v = Ok o' -> Forall P o'.
Proof.
  intros Hv Ho; unfold Put.
  destruct (has_own k o).
  - intros H; inversion H; subst; apply Forall_own_update; auto.
  - destruct (str_eqb k proto_key).
    + destruct v; intros H; inversion H; subst; exact Ho.
    + intros H; inversion H; subst; apply Forall_own_set; auto.
Qed.

Lemma assign_failed {A} (source : object) (e : outcome A) (f : A -> jsstring * jsvalue -> outcome A) :
  (forall a, e <> Ok a) ->
  forall a, fold_left (fun acc kv => r <- acc ;; f r kv) source e <> Ok a.
Proof.
  revert e; induction source as [|kv source IH]; intros e He a; simpl.
  - apply He.
  - apply IH; intros a'; destruct e; simpl; try discriminate.
    exfalso; exact (He a0 eq_refl).
Qed.

Lemma Forall_assign (P : jsstring * jsvalue -> Prop)
  (result source r : object) :
  Forall P result -> Forall P source -> assign result source = Ok r ->
  Forall P r.
Proof.
  unfold assign; intros Hr Hs; revert result Hr.
  induction Hs as [|[k v] source Hkv Hs IH]; intros result Hr; simpl.
  - intros H; inversion H; subst; exact Hr.
  - destruct (Put result k v) as [result'| |] eqn:E.
    + apply IH; eapply Forall_Put; eauto.
    + intros H; exfalso; revert H; apply assign_failed; discriminate.
    + intros H; exfalso; revert H; apply assign_failed; discriminate.
Qed.

Section Flattening.
Context {host : Host}.
Variable separator : jsstring.

(** What holds of every property the loop writes holds of its result. *)
Lemma flatten_entries_Forall (P : jsstring * jsvalue -> Prop)
  (child : jsvalue -> jsstring -> outcome object) (prefix : jsstring)
  (entries result flat : object) :
  let newKey key :=
    if is_empty prefix then key else prefix ++ separator ++ key in
  (forall key value r,
     In (key, value) entries -> child value (newKey key) = Ok r ->
     Forall P r) ->
  (forall key value,
     In (key, value) entries -> is_leaf value = true ->
     P (newKey key, value)) ->
  (forall key joined, In key (map fst entries) -> P (newKey key, VStr joined)) ->
  Forall P result ->
  flatten_entries child prefix separator entries result = Ok flat ->
  Forall P flat.
Proof.
  intros newKey; revert result.
  induction entries as [|[key value] entries IH];
    intros result Hchild Hleaf Hjoin Hres; cbn [flatten_entries].
  - intros H; inversion H; subst; exact Hres.
  - change (if is_empty prefix then key else prefix ++ separator ++ key)
      with (newKey key).
    assert (IH' : forall result', Forall P result' ->
              flatten_entries child prefix separator entries result'
              = Ok flat -> Forall P flat).
    { intros result' Hr'; apply IH; auto.
      - intros k v r Hin; apply Hchild; right; exact Hin.
      - intros k v Hin; apply Hleaf; right; exact Hin.
      - intros k j Hin; apply Hjoin; right; exact Hin. }
    assert (Hput : forall v result',
              P (newKey key, v) -> Put result (newKey key) v = Ok result' ->
              Forall P result')
      by (intros v result' Hv; eapply Forall_Put; eauto).
    destruct value as [| | b | n | s | elems | o];
      try (destruct (Put result (newKey key) _) as [result'| |] eqn:E;
           cbn [bind]; try discriminate;
           apply IH'; eapply Hput; [|exact E];
           apply Hleaf; [left; reflexivity | reflexivity]).
    + destruct (array_join elems) as [joined| |]; cbn [bind];
        try discriminate.
      destruct (Put result (newKey key) (VStr joined)) as [result'| |] eqn:E;
        cbn [bind]; try discriminate.
      apply IH'; eapply Hput; [|exact E].
      apply Hjoin; left; reflexivity.
    + destruct (child (VObj o) (newKey key)) as [r| |] eqn:Ec; cbn [bind];
        try discriminate.
      destruct (assign result r) as [result'| |] eqn:E; cbn [bind];
        try discriminate.
      apply IH'; eapply Forall_assign; [exact Hres| |exact E].
      eapply Hchild; [left; reflexivity | exact Ec].
Qed.

End Flattening.

Lemma startsWith_app_l (s a b : jsstring) :
  startsWith s (a ++ b) = true -> startsWith s a = true.
Proof.
  revert s; induction a as [|c a IH]; intros s; [intros _; apply startsWith_nil|].
  destruct s as [|c' s]; cbn [app startsWith]; [discriminate|].
  rewrite !andb_true_iff; intros [H1 H2]; split; auto.
Qed.

Lemma is_empty_false (s : jsstring) : s <> [] -> is_empty s = false.
Proof. destruct s; [contradiction | reflexivity]. Qed.

Section FlatteningFacts.
Context {host : Host}.
Variable separator : jsstring.

Lemma flattenObject_value_leaves (v : jsvalue) :
  forall prefix flat,
    flattenObject_value v prefix separator = Ok flat ->
    Forall (fun kv => is_leaf (snd kv) = true) flat.
Proof.
  induction v as [v Hv | o IH] using jsvalue_object_ind; intros prefix flat.
  - destruct v; try discriminate; intros H; inversion H; constructor.
  - cbn [flattenObject_value]; apply flatten_entries_Forall.
    + intros key value r Hin; rewrite Forall_forall in IH.
      apply (IH (key, value) Hin).
    + intros key value _ Hleaf; exact Hleaf.
    + reflexivity.
    + constructor.
Qed.

(** X1.  Whatever object is flattened, under whatever prefix, no value
    of the result is an object or an array. *)
Theorem flattenObject_values_are_leaves
  (obj : object) (prefix : jsstring) (flat : object) :
  flattenObject obj prefix separator = Ok flat ->
  Forall (fun kv => is_leaf (snd kv) = true) flat.
Proof. apply flattenObject_value_leaves. Qed.

Lemma flattenObject_value_prefixed (v : jsvalue) :
  forall prefix flat,
    prefix <> [] ->
    flattenObject_value v prefix separator = Ok flat ->
    Forall (fun kv => startsWith (fst kv) (prefix ++ separator) = true) flat.
Proof.
  induction v as [v Hv | o IH] using jsvalue_object_ind;
    intros prefix flat Hprefix.
  - destruct v; try discriminate; intros H; inversion H; constructor.
  - cbn [flattenObject_value]; rewrite Forall_forall in IH.
    apply flatten_entries_Forall; rewrite ?(is_empty_false Hprefix).
    + intros key value r Hin Hr.
      eapply Forall_impl;
        [|apply (IH (key, value) Hin (prefix ++ separator ++ key));
          [destruct prefix; [contradiction | discriminate] | exact Hr]].
      intros [k w]; cbn [fst].
      replace ((prefix ++ separator ++ key) ++ separator)
        with ((prefix ++ separator) ++ key ++ separator)
        by (rewrite <- !app_assoc; reflexivity).
      apply startsWith_app_l.
    + intros key value _ _; cbn [fst].
      rewrite app_assoc; apply startsWith_app.
    + intros key joined _; cbn [fst].
      rewrite app_assoc; apply startsWith_app.
    + constructor.
Qed.

(** X2.  Under a non-empty prefix every key of the flattened record
    begins with the prefix followed by the separator. *)
Theorem flattenObject_keys_carry_prefix
  (obj : object) (prefix : jsstring) (flat : object) :
  prefix <> [] ->
  flattenObject obj prefix separator = Ok flat ->
  Forall (fun kv => startsWith (fst kv) (prefix ++ separator) = true) flat.
Proof. intros Hp; apply flattenObject_value_prefixed; exact Hp. Qed.

Lemma flatten_entries_drops_empty_object
  (before after result : object) (key prefix : jsstring) :
  flatten_entries
    (fun value newKey => flattenObject_value value newKey separator)
    prefix separator (before ++ (key, VObj []) :: after) result
  = flatten_entries
      (fun value newKey => flattenObject_value value newKey separator)
      prefix separator (before ++ after) result.
Proof.
  revert result; induction before as [|[k v] before IH]; intros result.
  - cbn [app flatten_entries flattenObject_value bind assign fold_left].
    reflexivity.
  - cbn [app flatten_entries].
    destruct v as [| | b | n | s | elems | o];
      try (destruct (Put result _ _); cbn [bind];
           [apply IH | reflexivity | reflexivity]).
    + destruct (array_join elems); cbn [bind]; try reflexivity.
      destruct (Put result _ _); cbn [bind];
        [apply IH | reflexivity | reflexivity].
    + destruct (flattenObject_value (VObj o) _ separator); cbn [bind];
        try reflexivity.
      destruct (assign result _); cbn [bind];
        [apply IH | reflexivity | reflexivity].
Qed.

(** X3.  A property whose value is the empty object leaves no trace in
    the flattened record, wherever it stands among the properties, and
    so none in the TOON text of the object either. *)
Theorem flattenObject_drops_empty_object
  (before after : object) (key prefix delimiter : jsstring)
  (includeSchema : bool) :
  flattenObject (before ++ (key, VObj []) :: after) prefix separator
  = flattenObject (before ++ after) prefix separator
  /\ convertObjectToToon (before ++ (key, VObj []) :: after) delimiter
       separator includeSchema
     = convertObjectToToon (before ++ after) delimiter separator
         includeSchema.
Proof.
  unfold convertObjectToToon, flattenObject; cbn [flattenObject_value].
  rewrite !flatten_entries_drops_empty_object; split; reflexivity.
Qed.

(** X4.  A flat object whose keys are unique, in property order and
    other than [__proto__] is flattened to itself, except that every
    array is replaced by the string of its elements joined by commas. *)
Theorem flattenObject_of_flat_object (obj flat : object) :
  NoDup (map fst obj) ->
  property_order (map fst obj) ->
  Forall (fun k => k <> proto_key) (map fst obj) ->
  Forall (fun v => is_object v = false) (map snd obj) ->
  mapM flat_entry obj = Ok flat ->
  flattenObject obj [] separator = Ok flat
  /\ map fst flat = map fst obj.
Proof.
  intros Hnd Hord Hproto Hflat Hentries.
  assert (Hkeys : map fst flat = map fst obj).
  { clear - Hentries; revert flat Hentries.
    induction obj as [|[k v] obj IH]; intros flat; cbn [mapM].
    - intros H; inversion H; reflexivity.
    - unfold flat_entry at 1; cbn [fst snd].
      destruct (mapM flat_entry obj) as [flat'| |]; 
        destruct v as [| | b | n | s | elems | o]; cbn [bind];
        try destruct (array_join elems); cbn [bind];
        try discriminate;
        intros H; inversion H; subst; cbn [map fst];
        rewrite (IH flat') by reflexivity; reflexivity. }
  split; [|exact Hkeys].
  unfold flattenObject; cbn [flattenObject_value].
  rewrite flatten_entries_flat, Hentries by assumption; cbn [bind].
  rewrite define_all_property_order by (rewrite Hkeys; assumption).
  reflexivity.
Qed.

End FlatteningFacts.

(* ================================================================== *)
(** * More on the tokenizer *)
(* ================================================================== *)

Lemma loop_without_quotes (d : char) (line : jsstring)
  (values : list jsstring) (current : jsstring) :
  includes line [quote] = false ->
  parseDelimitedLine_loop [d] line values current false
  = values ++ split_scan [d] line 0 current.
Proof.
  revert values current; induction line as [|c line IH];
    intros values current Hq; [reflexivity|].
  rewrite includes_char_cons in Hq; apply orb_false_iff in Hq as [Hc Hq].
  cbn [parseDelimitedLine_loop split_scan startsWith str_eqb length Nat.sub].
  rewrite N.eqb_sym, Hc, startsWith_nil, !andb_true_r, (N.eqb_sym c d).
  destruct (N.eqb d c).
  - rewrite IH, <- app_assoc by assumption; reflexivity.
  - apply IH; assumption.
Qed.

(** X5.  On a line without quote characters the tokenizer cuts at
    every occurrence of a one-character delimiter, exactly as
    [line.split(delimiter)] does. *)
Theorem parseDelimitedLine_is_split_without_quotes
  (d : char) (line : jsstring) :
  includes line [quote] = false ->
  parseDelimitedLine line [d] = split line [d].
Proof. intros Hq; apply (loop_without_quotes d line [] [] Hq). Qed.

Lemma str_eqb_length (s t : jsstring) :
  length s <> length t -> str_eqb s t = false.
Proof. intros H; apply str_eqb_neq; intros ->; apply H; reflexivity. Qed.

Lemma loop_never_splits (delimiter : jsstring) (n : nat) :
  length delimiter <> 1 ->
  forall line values current inQuotes,
    length line <= n ->
    exists token,
      parseDelimitedLine_loop delimiter line values current inQuotes
      = values ++ [token].
Proof.
  intros Hlen; induction n as [|n IH]; intros line values current inQuotes Hn.
  - destruct line; [eexists; reflexivity | simpl in Hn; lia].
  - destruct line as [|c rest]; [eexists; reflexivity|].
    simpl in Hn; cbn [parseDelimitedLine_loop].
    rewrite (@str_eqb_length [c] delimiter) by (simpl; auto); cbn [andb].
    destruct (N.eqb c quote); [|apply IH; lia].
    destruct rest as [|c' rest']; [apply IH; simpl; lia|].
    destruct (inQuotes && N.eqb c' quote); apply IH; simpl in *; lia.
Qed.

(** X6.  A delimiter that is not exactly one code unit long, the empty
    string included, is never recognised: the whole line comes back as
    a single token. *)
Theorem parseDelimitedLine_needs_one_character
  (line delimiter : jsstring) :
  length delimiter <> 1 ->
  exists token, parseDelimitedLine line delimiter = [token].
Proof.
  intros Hlen.
  apply (@loop_never_splits delimiter (length line) Hlen line [] [] false
           (le_n _)).
Qed.

(** X7.  With a one-character delimiter other than the quote, a row of
    escaped fields joined by the delimiter is cut back into the fields
    it was made of, provided every field that holds a quote also holds
    the delimiter or a newline.  The row of no field at all reads as
    one empty token. *)
Theorem parseDelimitedLine_row_round_trip
  (d : char) (fields : list jsstring) :
  d <> quote ->
  Forall (fun s => includes s [d] || includes s [newline] = true
                   \/ includes s [quote] = false) fields ->
  parseDelimitedLine (join [d] (map (fun s => escapeValue s [d]) fields)) [d]
  = match fields with
    | [] => [[]]
    | _ :: _ => fields
    end.
Proof.
  intros Hd Hall; destruct fields as [|t ts]; [reflexivity|].
  apply (@loop_joined_fields d t ts [] Hd Hall).
Qed.

(* ================================================================== *)
(** * More on nested-key assignment *)
(* ================================================================== *)

Lemma Put_get (o o' : object) (k k' : jsstring) (v : jsvalue) :
  Put o k v = Ok o' -> k' <> k -> own_get k' o' = own_get k' o.
Proof.
  unfold Put; intros H Hk.
  destruct (has_own k o) eqn:Eo.
  - inversion H; subst.
    rewrite own_get_update, (str_eqb_neq Hk) by assumption; reflexivity.
  - destruct (str_eqb k proto_key).
    + destruct v; inversion H; reflexivity.
    + inversion H; subst.
      rewrite own_get_own_set, (str_eqb_neq Hk); reflexivity.
Qed.

Lemma own_get_has_own (k : jsstring) (o : object) (v : jsvalue) :
  own_get k o = Some v -> has_own k o = true.
Proof. unfold has_own; intros ->; reflexivity. Qed.

Lemma setNestedValue_walk_step (key key' : jsstring)
  (rest : list jsstring) (current : object) (value : jsvalue) :
  setNestedValue_walk (key :: key' :: rest) current value
  = match Get current key with
    | Missing =>
        child <- setNestedValue_walk (key' :: rest) [] value ;;
        Ok (own_set key (VObj child) current)
    | Own (VObj child) =>
        child' <- setNestedValue_walk (key' :: rest) child value ;;
        Ok (own_update key (VObj child') current)
    | Own (VStr _) | Own (VNum _) | Own (VBool _) =>
        if assign_on_primitive (key' :: rest)
        then Ok current else Throw TypeError
    | Own VNull | Own VUndefined => Throw TypeError
    | Own (VArr _) | Builtin _ | ObjectPrototype => Escapes
    end.
Proof. reflexivity. Qed.

Lemma walk_then_lookup (keys : list jsstring) :
  keys <> [] ->
  ~ In proto_key keys ->
  forall current value result,
    setNestedValue_walk keys current value = Ok result ->
    lookup_path keys result = Some value.
Proof.
  induction keys as [|key rest IH]; [contradiction|]; intros _ Hproto.
  assert (Hkey : key <> proto_key) by (intros E; apply Hproto; left; auto).
  assert (Hrest : ~ In proto_key rest) by (intros E; apply Hproto; right; auto).
  destruct rest as [|key' rest'].
  - intros current value result; cbn [setNestedValue_walk lookup_path].
    rewrite Put_own_set by assumption; intros H; inversion H; subst.
    rewrite own_get_own_set, str_eqb_refl; reflexivity.
  - specialize (IH ltac:(discriminate) Hrest).
    intros current value result.
    rewrite setNestedValue_walk_step.
    change (lookup_path (key :: key' :: rest') result)
      with (match own_get key result with
            | Some (VObj child) => lookup_path (key' :: rest') child
            | _ => None
            end).
    assert (Hprim : assign_on_primitive (key' :: rest') = false).
    { destruct rest'; [|reflexivity]; cbn [assign_on_primitive].
      apply str_eqb_neq; intros E; apply Hrest; left; auto. }
    unfold Get; destruct (own_get key current) as [held|] eqn:Eown.
    + destruct held as [| | b | n | s | l | child]; rewrite ?Hprim;
        try discriminate.
      destruct (setNestedValue_walk (key' :: rest') child value)
        as [child'| |] eqn:Ew; cbn [bind]; try discriminate.
      intros H; inversion H; subst.
      rewrite own_get_update, str_eqb_refl
        by (eapply own_get_has_own; eassumption).
      eapply IH; eassumption.
    + rewrite (str_eqb_neq Hkey).
      destruct (builtin_name key); try discriminate.
      destruct (setNestedValue_walk (key' :: rest') [] value)
        as [child| |] eqn:Ew; cbn [bind]; try discriminate.
      intros H; inversion H; subst.
      rewrite own_get_own_set, str_eqb_refl.
      eapply IH; eassumption.
Qed.

(** X8.  When an assignment returns and no segment of the path is
    [__proto__], reading the record along the segments of the path
    gives the value that was assigned. *)
Theorem setNestedValue_then_lookup
  (obj result : object) (path separator : jsstring) (value : jsvalue) :
  split path separator <> [] ->
  ~ In proto_key (split path separator) ->
  setNestedValue obj path value separator = Ok result ->
  lookup_path (split path separator) result = Some value.
Proof. intros Hne Hproto; apply walk_then_lookup; assumption. Qed.

(** X9.  An assignment that returns touches one property of the record
    at most, the one named by the first segment of the path: every
    other key reads as before. *)
Theorem setNestedValue_frame
  (obj result : object) (path separator key other : jsstring)
  (rest : list jsstring) (value : jsvalue) :
  split path separator = key :: rest ->
  other <> key ->
  setNestedValue obj path value separator = Ok result ->
  own_get other result = own_get other obj.
Proof.
  unfold setNestedValue; intros -> Hother.
  destruct rest as [|key' rest'].
  - cbn [setNestedValue_walk]; intros H; eapply Put_get; eassumption.
  - rewrite setNestedValue_walk_step.
    unfold Get; destruct (own_get key obj) as [held|] eqn:Eown.
    + destruct held as [| | b | n | s | l | child]; try discriminate;
        try (destruct (assign_on_primitive (key' :: rest'));
             try discriminate; intros H; inversion H; reflexivity).
      destruct (setNestedValue_walk (key' :: rest') child value);
        cbn [bind]; try discriminate.
      intros H; inversion H; subst.
      rewrite own_get_update, (str_eqb_neq Hother)
        by (eapply own_get_has_own; eassumption); reflexivity.
    + destruct (str_eqb key proto_key); try discriminate.
      destruct (builtin_name key); try discriminate.
      destruct (setNestedValue_walk (key' :: rest') [] value);
        cbn [bind]; try discriminate.
      intros H; inversion H; subst.
      rewrite own_get_own_set, (str_eqb_neq Hother); reflexivity.
Qed.

Lemma own_set_nil (k : jsstring) (v : jsvalue) : own_set k v [] = [(k, v)].
Proof. unfold own_set; cbn; destruct (array_index k); reflexivity. Qed.

Lemma ordinary_key_not_proto (k : jsstring) :
  ordinary_key k -> k <> proto_key.
Proof. intros H ->; discriminate H. Qed.

Lemma walk_on_empty (keys : list jsstring) (value : jsvalue) :
  keys <> [] ->
  Forall ordinary_key keys ->
  setNestedValue_walk keys [] value = Ok (nest keys value).
Proof.
  induction keys as [|key rest IH]; [contradiction|]; intros _ Hall.
  inversion Hall as [|? ? Hkey Hrest]; subst.
  destruct rest as [|key' rest'].
  - cbn [setNestedValue_walk nest].
    rewrite Put_own_set, own_set_nil
      by (apply ordinary_key_not_proto; assumption); reflexivity.
  - rewrite setNestedValue_walk_step.
    rewrite Hkey, IH by (assumption || discriminate); cbn [bind].
    rewrite own_set_nil; reflexivity.
Qed.

Lemma setNestedValue_builds_nest
  (path separator : jsstring) (value : jsvalue) :
  split path separator <> [] ->
  Forall ordinary_key (split path separator) ->
  setNestedValue [] path value separator
  = Ok (nest (split path separator) value).
Proof. intros Hne Hall; apply walk_on_empty; assumption. Qed.

(** X10.  On an empty record a path whose segments are ordinary keys
    never throws: it builds one nested object per segment, the last of
    which holds the value. *)
Theorem setNestedValue_on_empty_record
  (path separator : jsstring) (value : jsvalue) :
  split path separator <> [] ->
  Forall ordinary_key (split path separator) ->
  setNestedValue [] path value separator
  = Ok (nest (split path separator) value).
Proof. intros Hne Hall; apply walk_on_empty; assumption. Qed.

(* ================================================================== *)
(** * Nested-key assignment at any depth *)
(* ================================================================== *)







(* ================================================================== *)
(** * Flattening against nested-key assignment *)
(* ================================================================== *)

Lemma join_cons (sep s : jsstring) (l : list jsstring) :
  l <> [] -> join sep (s :: l) = s ++ sep ++ join sep l.
Proof. destruct l; [contradiction | reflexivity]. Qed.

Lemma startsWith_split (s p : jsstring) :
  startsWith s p = true -> exists r, s = p ++ r.
Proof.
  revert s; induction p as [|c p IH]; intros s; [exists s; reflexivity|].
  destruct s as [|c' s]; cbn [startsWith]; [discriminate|].
  rewrite andb_true_iff, N.eqb_eq; intros [-> H].
  destruct (IH s H) as [r ->]; exists r; reflexivity.
Qed.

Lemma split_scan_skip (sep t s cur : jsstring) :
  split_scan sep (t ++ s) (length t) cur = split_scan sep s 0 cur.
Proof.
  induction t as [|c t IH]; [reflexivity|].
  cbn [app length split_scan]; exact IH.
Qed.

Lemma join_split_scan (sep : jsstring) (n : nat) :
  sep <> [] ->
  forall s cur,
    length s <= n -> join sep (split_scan sep s 0 cur) = cur ++ s.
Proof.
  intros Hsep; induction n as [|n IH]; intros s cur Hn.
  - destruct s; [simpl; rewrite app_nil_r; reflexivity | simpl in Hn; lia].
  - destruct s as [|c s]; [simpl; rewrite app_nil_r; reflexivity|].
    cbn [split_scan]; destruct (startsWith (c :: s) sep) eqn:E.
    + destruct (startsWith_split _ _ E) as [r Hr].
      destruct sep as [|c0 sep']; [contradiction|].
      cbn [app] in Hr; inversion Hr; subst c0 s.
      cbn [length Nat.sub]; rewrite Nat.sub_0_r, split_scan_skip.
      rewrite join_cons by apply split_scan_not_nil.
      rewrite IH by (simpl in Hn; rewrite length_app in Hn; lia).
      reflexivity.
    + rewrite IH by (simpl in Hn; lia).
      rewrite <- app_assoc; reflexivity.
Qed.

(** Splitting a string and joining the pieces with the same separator
    gives the string back. *)
Lemma join_split (s sep : jsstring) : join sep (split s sep) = s.
Proof.
  destruct sep as [|c sep]; cbn [split].
  - induction s as [|c s IH]; [reflexivity|].
    cbn [map]; destruct s; [reflexivity|].
    rewrite join_cons by discriminate; cbn [app]; f_equal; exact IH.
  - apply (@join_split_scan (c :: sep) (length s) ltac:(discriminate) s []
             (le_n _)).
Qed.

Section FlattenNest.
Context {host : Host}.
Variable separator : jsstring.

Lemma flattenObject_value_object (entries : object) (prefix : jsstring) :
  flattenObject_value (VObj entries) prefix separator
  = flatten_entries
      (fun value newKey => flattenObject_value value newKey separator)
      prefix separator entries [].
Proof. reflexivity. Qed.

Lemma Put_nil (k : jsstring) (v : jsvalue) :
  Put [] k v
  = if str_eqb k proto_key
    then match v with
         | VNull | VArr _ | VObj _ => Escapes
         | _ => Ok []
         end
    else Ok [(k, v)].
Proof.
  unfold Put; cbn [has_own own_get].
  destruct (str_eqb k proto_key); [|rewrite own_set_nil]; reflexivity.
Qed.

Lemma flatten_nest (keys : list jsstring) (value : jsvalue) :
  is_leaf value = true ->
  keys <> [] ->
  forall prefix,
    prefix <> [] ->
    flattenObject_value (VObj (nest keys value)) prefix separator
    = (result <- Put [] (prefix ++ separator ++ join separator keys) value ;;
       Ok result).
Proof.
  intros Hleaf; induction keys as [|key rest IH]; [contradiction|].
  intros _ prefix Hprefix.
  destruct rest as [|key' rest'].
  - rewrite flattenObject_value_object; cbn [nest flatten_entries join].
    rewrite (is_empty_false Hprefix).
    destruct value; try discriminate; reflexivity.
  - change (nest (key :: key' :: rest') value)
      with [(key, VObj (nest (key' :: rest') value))].
    rewrite flattenObject_value_object; cbn [flatten_entries].
    rewrite (is_empty_false Hprefix).
    rewrite IH
      by (discriminate || (destruct prefix; [contradiction | discriminate])).
    rewrite (@join_cons separator key (key' :: rest')) by discriminate.
    rewrite <- !app_assoc.
    rewrite Put_nil.
    match goal with |- context [str_eqb ?k proto_key] =>
      destruct (str_eqb k proto_key) eqn:Ek end.
    + destruct value; try discriminate; reflexivity.
    + cbn [bind]; unfold assign; cbn [fold_left bind fst snd].
      rewrite Put_nil, Ek; reflexivity.
Qed.

(** X11.  Flattening undoes nested-key assignment on one path: when
    the segments of the path are ordinary keys, the first of them is
    not empty, the value is neither object nor array and the path is
    not [__proto__], assigning the value under the path on an empty
    record and flattening the record with the same separator yields
    the single property that maps the path to the value. *)
Theorem flattenObject_after_setNestedValue
  (path : jsstring) (value : jsvalue) (record : object) :
  Forall ordinary_key (split path separator) ->
  hd [] (split path separator) <> [] ->
  is_leaf value = true ->
  path <> proto_key ->
  setNestedValue [] path value separator = Ok record ->
  flattenObject record [] separator = Ok [(path, value)].
Proof.
  intros Hall Hhd Hleaf Hproto.
  assert (Hne : split path separator <> [])
    by (intros E; rewrite E in Hhd; apply Hhd; reflexivity).
  rewrite setNestedValue_builds_nest by assumption.
  intros H; inversion H; subst record; clear H.
  pose proof (join_split path separator) as Hjoin.
  destruct (split path separator) as [|key rest]; [contradiction|].
  cbn [hd] in Hhd.
  assert (Hput : Put [] path value = Ok [(path, value)])
    by (rewrite Put_own_set, own_set_nil by assumption; reflexivity).
  destruct rest as [|key' rest'].
  - cbn [join] in Hjoin; subst key.
    unfold flattenObject; rewrite flattenObject_value_object.
    cbn [nest flatten_entries is_empty].
    destruct value; try discriminate; rewrite Hput; reflexivity.
  - rewrite (@join_cons separator key (key' :: rest')) in Hjoin
      by discriminate.
    unfold flattenObject.
    change (nest (key :: key' :: rest') value)
      with [(key, VObj (nest (key' :: rest') value))].
    rewrite flattenObject_value_object; cbn [flatten_entries is_empty].
    rewrite flatten_nest by (assumption || discriminate).
    rewrite Hjoin, Hput; cbn [bind].
    unfold assign; cbn [fold_left bind fst snd]; rewrite Hput; reflexivity.
Qed.

End FlattenNest.

(* ================================================================== *)
(** * More on the row loop *)
(* ================================================================== *)

Lemma nth_error_field_at (values : list jsstring) (i : nat) :
  match nth_error values i with Some s => s | None => [] end
  = field_at values i.
Proof.
  unfold field_at; revert i; induction values as [|v values IH];
    intros [|i]; try reflexivity; apply IH.
Qed.

Lemma trimStart_blank_app (a s : jsstring) :
  forallb is_space a = true -> trimStart (a ++ s) = trimStart s.
Proof.
  induction a as [|c a IH]; [reflexivity|]; cbn [forallb app trimStart].
  rewrite andb_true_iff; intros [-> Ha]; auto.
Qed.

Lemma forallb_rev {A} (f : A -> bool) (l : list A) :
  forallb f (rev l) = forallb f l.
Proof.
  induction l as [|a l IH]; [reflexivity|].
  cbn [rev forallb]; rewrite forallb_app, IH; cbn [forallb].
  rewrite andb_true_r; apply andb_comm.
Qed.

Lemma trimEnd_app_blank (s b : jsstring) :
  forallb is_space b = true -> trimEnd (s ++ b) = trimEnd s.
Proof.
  intros Hb; unfold trimEnd.
  rewrite rev_app_distr, trimStart_blank_app
    by (rewrite forallb_rev; exact Hb).
  reflexivity.
Qed.

Lemma trimStart_app (s b : jsstring) :
  forallb is_space b = true ->
  trimEnd (trimStart (s ++ b)) = trimEnd (trimStart s).
Proof.
  intros Hb; induction s as [|c s IH].
  - cbn [app]; rewrite trimStart_blank by assumption; reflexivity.
  - cbn [app trimStart]; destruct (is_space c); [exact IH|].
    apply (@trimEnd_app_blank (c :: s) b Hb).
Qed.

(** Blank text around a string does not change what [trim] returns. *)
Lemma trim_surrounded (a s b : jsstring) :
  forallb is_space a = true -> forallb is_space b = true ->
  trim (a ++ s ++ b) = trim s.
Proof.
  intros Ha Hb; unfold trim.
  rewrite trimStart_blank_app by assumption.
  apply trimStart_app; assumption.
Qed.

Section RowLoop.
Context {host : Host}.
Variable delimiter nestedSeparator : jsstring.
Variables parseNumbers parseBooleans : bool.

Lemma fill_record_fields (keys : list jsstring) (values : list jsstring)
  (i : nat) (record : object) :
  Forall (fun k => split k nestedSeparator = [k] /\ k <> proto_key) keys ->
  fill_record keys i values nestedSeparator parseNumbers parseBooleans record
  = Ok (define_all
          (combine keys
             (map (fun j => coerce parseNumbers parseBooleans
                              (field_at values j))
                  (seq i (length keys))))
          record).
Proof.
  revert i record; induction keys as [|key keys IH]; intros i record Hk;
    [reflexivity|].
  inversion Hk as [|? ? (Hsplit & Hproto) Hk']; subst.
  cbn [fill_record]; rewrite nth_error_field_at.
  unfold setNestedValue; rewrite Hsplit; cbn [setNestedValue_walk].
  rewrite Put_own_set by assumption; cbn [bind].
  rewrite IH by assumption; reflexivity.
Qed.

Lemma parse_rows_plain (keys dataLines : list jsstring) :
  NoDup keys ->
  property_order keys ->
  Forall (fun k => split k nestedSeparator = [k] /\ k <> proto_key) keys ->
  parse_rows keys dataLines delimiter nestedSeparator parseNumbers
    parseBooleans
  = Ok (map (fun line =>
               combine keys
                 (map (fun j => coerce parseNumbers parseBooleans
                                  (field_at (parseDelimitedLine line delimiter)
                                     j))
                      (seq 0 (length keys))))
            (filter (fun line => negb (is_blank line)) dataLines)).
Proof.
  intros Hnd Hord Hk.
  induction dataLines as [|line dataLines IH]; [reflexivity|].
  cbn [parse_rows filter]; unfold is_blank at 1.
  destruct (is_empty (trim line)); cbn [negb]; [exact IH|].
  rewrite fill_record_fields, IH by assumption; cbn [bind map].
  rewrite define_all_property_order;
    [reflexivity | |];
    rewrite map_fst_combine
      by (rewrite length_map, length_seq; reflexivity); assumption.
Qed.

(** C7.  Every key of every row is assigned the coerced form of the
    token at its position (the empty string when the row is too short),
    so a text whose keys are unique, in property order, single segments
    and other than [__proto__] decodes to the records that pair each key
    with the coerced token.  On a non-empty token the numeric test
    comes first: with [parseNumbers] on and [Number(token)] not NaN the
    result is that number; failing that, with [parseBooleans] on, the
    tokens [true] and [false] become booleans; any other token stays the
    string it was, and so does the empty token.  So [true] still becomes
    the boolean under [parseNumbers], its numeric reading being NaN. *)
Theorem coerce_number_then_boolean :
  (forall key keys i values record,
     fill_record (key :: keys) i values nestedSeparator parseNumbers
       parseBooleans record
     = (record' <- setNestedValue record key
                     (coerce parseNumbers parseBooleans (field_at values i))
                     nestedSeparator ;;
        fill_record keys (S i) values nestedSeparator parseNumbers
          parseBooleans record'))
  /\ (forall toon outputFormat keys dataLines,
        schema_and_data (split (trim toon) [newline]) delimiter
        = (keys, dataLines) ->
        NoDup keys ->
        property_order keys ->
        Forall (fun k => split k nestedSeparator = [k] /\ k <> proto_key)
          keys ->
        parseToon toon delimiter nestedSeparator outputFormat parseNumbers
          parseBooleans
        = Ok (shape_output outputFormat
                (map (fun line =>
                        combine keys
                          (map (fun j =>
                                  coerce parseNumbers parseBooleans
                                    (field_at
                                       (parseDelimitedLine line delimiter) j))
                             (seq 0 (length keys))))
                   (filter (fun line => negb (is_blank line)) dataLines))))
  /\ (forall token,
        token <> [] ->
        (parseNumbers = true -> isNaN (Number token) = false ->
         coerce parseNumbers parseBooleans token = VNum (Number token))
        /\ (parseNumbers = false \/ isNaN (Number token) = true ->
            parseBooleans = true ->
            (token = lit "true" ->
             coerce parseNumbers parseBooleans token = VBool true)
            /\ (token = lit "false" ->
                coerce parseNumbers parseBooleans token = VBool false)
            /\ (token <> lit "true" -> token <> lit "false" ->
                coerce parseNumbers parseBooleans token = VStr token))
        /\ (parseNumbers = false \/ isNaN (Number token) = true ->
            parseBooleans = false ->
            coerce parseNumbers parseBooleans token = VStr token))
  /\ coerce parseNumbers parseBooleans [] = VStr []
  /\ (isNaN (Number (lit "true")) = true ->
      coerce true true (lit "true") = VBool true).
Proof.
  split; [|split; [|split; [|split]]].
  - intros key keys i values record.
    cbn [fill_record]; rewrite nth_error_field_at; reflexivity.
  - intros toon outputFormat keys dataLines Hsd Hnd Hord Hkeys.
    rewrite parseToon_unfold; unfold parse_records; rewrite Hsd.
    rewrite parse_rows_plain by assumption; reflexivity.
  - intros token Hne.
    assert (Hemp : is_empty token = false)
      by (destruct token; [exfalso; apply Hne; reflexivity | reflexivity]).
    unfold coerce; rewrite Hemp.
    split; [|split].
    + intros -> ->; reflexivity.
    + intros Hnum ->.
      assert (Hc : parseNumbers && negb (isNaN (Number token)) && negb false
                   = false)
        by (destruct Hnum as [-> | ->];
            [reflexivity | apply andb_false_iff; left; apply andb_false_r]).
      rewrite Hc.
      split; [|split].
      * intros ->; reflexivity.
      * intros ->; reflexivity.
      * intros Ht Hf; rewrite !str_eqb_neq by assumption; reflexivity.
    + intros Hnum ->.
      destruct Hnum as [-> | ->];
        [reflexivity | rewrite andb_false_r; reflexivity].
  - unfold coerce; cbn [is_empty negb]; rewrite andb_false_r.
    destruct parseBooleans; reflexivity.
  - intros Hnan; unfold coerce; rewrite Hnan; reflexivity.
Qed.

(** X12.  When the keys are unique, in property order, single segments
    under the nested separator and other than [__proto__], the row loop
    never throws: every line that is not blank becomes the record that
    pairs each key with the coerced token at its position, tokens past
    the last key are ignored, and a key past the last token gets the
    empty string. *)
Theorem parse_rows_with_plain_keys
  (keys dataLines : list jsstring) :
  NoDup keys ->
  property_order keys ->
  Forall (fun k => split k nestedSeparator = [k] /\ k <> proto_key) keys ->
  parse_rows keys dataLines delimiter nestedSeparator parseNumbers
    parseBooleans
  = Ok (map (fun line =>
               combine keys
                 (map (fun j => coerce parseNumbers parseBooleans
                                  (field_at (parseDelimitedLine line delimiter)
                                     j))
                      (seq 0 (length keys))))
            (filter (fun line => negb (is_blank line)) dataLines))
  /\ (forall values j,
        length values <= j ->
        coerce parseNumbers parseBooleans (field_at values j) = VStr []).
Proof.
  intros Hnd Hord Hk; split; [apply parse_rows_plain; assumption|].
  intros values j Hj; unfold field_at.
  rewrite nth_overflow by assumption.
  unfold coerce; cbn [is_empty negb]; rewrite andb_false_r.
  destruct parseBooleans; reflexivity.
Qed.

(** X13.  Whatever the keys, a run of the row loop that returns has
    pushed exactly one record for every line that is not blank. *)
Theorem parse_rows_one_record_per_line
  (keys dataLines : list jsstring) (records : list object) :
  parse_rows keys dataLines delimiter nestedSeparator parseNumbers
    parseBooleans = Ok records ->
  length records
  = length (filter (fun line => negb (is_blank line)) dataLines).
Proof.
  revert records; induction dataLines as [|line dataLines IH];
    intros records; cbn [parse_rows filter].
  - intros H; inversion H; reflexivity.
  - unfold is_blank at 1; destruct (is_empty (trim line)); cbn [negb];
      [apply IH|].
    destruct (fill_record keys 0 _ _ _ _ _); cbn [bind]; try discriminate.
    destruct (parse_rows keys dataLines _ _ _ _) as [rs| |]; cbn [bind];
      try discriminate.
    intros H; inversion H; subst; cbn [length]; f_equal; apply IH;
      reflexivity.
Qed.

(** X14.  A text whose trimmed form is one line that starts with
    [@schema] holds a header and no data: it decodes to no record, so
    to the empty object under [object] and to the empty list under
    every other format. *)
Theorem parseToon_schema_line_only (toon outputFormat : jsstring) :
  includes (trim toon) [newline] = false ->
  startsWith (trim toon) (lit "@schema") = true ->
  parseToon toon delimiter nestedSeparator outputFormat parseNumbers
    parseBooleans
  = Ok (if str_eqb outputFormat (lit "object") then VObj [] else VArr []).
Proof.
  intros Hnl Hschema; rewrite parseToon_unfold.
  unfold split; rewrite split_char_none by assumption.
  unfold parse_records, schema_and_data; cbn [hd tl app]; rewrite Hschema.
  cbn [parse_rows bind]; unfold shape_output.
  destruct (str_eqb outputFormat (lit "auto")) eqn:Ea; [|reflexivity].
  apply str_eqb_eq in Ea; subst; reflexivity.
Qed.

(** X15.  White space and line breaks before and after the text do not
    change what it decodes to. *)
Theorem parseToon_ignores_surrounding_space
  (before toon after outputFormat : jsstring) :
  forallb is_space before = true ->
  forallb is_space after = true ->
  parseToon (before ++ toon ++ after) delimiter nestedSeparator outputFormat
    parseNumbers parseBooleans
  = parseToon toon delimiter nestedSeparator outputFormat parseNumbers
      parseBooleans.
Proof.
  intros Hb Ha; rewrite !parseToon_unfold, trim_surrounded by assumption.
  reflexivity.
Qed.

End RowLoop.

(* ================================================================== *)
(** * Array mode there and back *)
(* ================================================================== *)

Lemma own_get_app_skip (r1 r2 : object) (k : jsstring) (v : jsvalue) :
  ~ In k (map fst r1) -> own_get k (r1 ++ (k, v) :: r2) = Some v.
Proof.
  induction r1 as [|[k1 v1] r1 IH]; cbn [app map fst own_get In]; intros Hin.
  - rewrite str_eqb_refl; reflexivity.
  - rewrite str_eqb_neq by (intros ->; apply Hin; left; reflexivity).
    apply IH; intros H; apply Hin; right; exact H.
Qed.

Lemma map_field_at (A : Type) (f : jsstring -> A) (pre l : list jsstring) :
  map (fun j => f (field_at (pre ++ l) j)) (seq (length pre) (length l))
  = map f l.
Proof.
  revert pre; induction l as [|x l IH]; intros pre; [reflexivity|].
  cbn [length seq map]; f_equal.
  - unfold field_at; rewrite app_nth2, Nat.sub_diag by lia; reflexivity.
  - replace (pre ++ x :: l) with ((pre ++ [x]) ++ l)
      by (rewrite <- app_assoc; reflexivity).
    replace (S (length pre)) with (length (pre ++ [x]))
      by (rewrite length_app; simpl; lia).
    apply IH.
Qed.

Lemma ends_in_ink_join (sep : jsstring) (lines : list jsstring) :
  lines <> [] -> Forall ends_in_ink lines -> ends_in_ink (join sep lines).
Proof.
  intros Hne Hall; induction Hall as [|l ls Hl Hls IH]; [contradiction|].
  destruct ls as [|l' ls]; [exact Hl|].
  rewrite join_cons by discriminate.
  do 2 apply ends_in_ink_app; apply IH; discriminate.
Qed.

Lemma concat_lines (lines : list jsstring) :
  lines <> [] ->
  concat (map (fun l => l ++ [newline]) lines)
  = join [newline] lines ++ [newline].
Proof.
  induction lines as [|l ls IH]; [contradiction|]; intros _.
  destruct ls as [|l' ls]; [cbn; rewrite app_nil_r; reflexivity|].
  rewrite join_cons by discriminate.
  cbn [map concat]; cbn [map concat] in IH.
  rewrite IH by discriminate; rewrite <- !app_assoc; reflexivity.
Qed.

Section ArrayRoundTrip.
Context {host : Host}.
Variable d : char.
Variable separator : jsstring.
Variables parseNumbers parseBooleans : bool.

Lemma array_row_own_fields (r1 r2 : object) :
  NoDup (map fst (r1 ++ r2)) ->
  mapM (fun key => s <- String_of_slot (Get (r1 ++ r2) key) ;;
                   Ok (escapeValue s [d])) (map fst r2)
  = mapM (fun v => s <- String_or_empty v ;; Ok (escapeValue s [d]))
      (map snd r2).
Proof.
  revert r1; induction r2 as [|[k v] r2 IH]; intros r1 Hnd; [reflexivity|].
  cbn [map fst snd mapM].
  assert (Hin : ~ In k (map fst r1)).
  { rewrite map_app in Hnd; cbn [map fst] in Hnd.
    apply NoDup_remove_2 in Hnd; intros H; apply Hnd, in_or_app; left; exact H. }
  unfold Get at 1; rewrite own_get_app_skip by assumption.
  cbn [String_of_slot].
  replace (r1 ++ (k, v) :: r2) with ((r1 ++ [(k, v)]) ++ r2) in *
    by (rewrite <- app_assoc; reflexivity).
  rewrite IH by assumption; reflexivity.
Qed.

Lemma array_row_texts (record : object) (texts : list jsstring) :
  NoDup (map fst record) ->
  mapM String_or_empty (map snd record) = Ok texts ->
  array_row (map fst record) [d] record
  = Ok (join [d] (map (fun s => escapeValue s [d]) texts) ++ [newline]).
Proof.
  intros Hnd Htexts; unfold array_row.
  pose proof (array_row_own_fields [] record Hnd) as Hrow.
  cbn [app] in Hrow; rewrite Hrow.
  rewrite (mapM_then_map _ (fun s => escapeValue s [d]) _ Htexts).
  reflexivity.
Qed.

Lemma array_rows_texts (keys : list jsstring) (arr : list object)
  (rows : list (list jsstring)) :
  NoDup keys ->
  Forall2 (fun record texts =>
             map fst record = keys
             /\ mapM String_or_empty (map snd record) = Ok texts) arr rows ->
  mapM (array_row keys [d]) arr
  = Ok (map (fun texts =>
               join [d] (map (fun s => escapeValue s [d]) texts) ++ [newline])
          rows).
Proof.
  intros Hnd; induction 1 as [|record texts arr rows (Hk & Ht) _ IH];
    [reflexivity|].
  cbn [mapM map]; rewrite <- Hk at 1.
  rewrite (@array_row_texts record texts) by (rewrite ?Hk; assumption).
  cbn [bind]; rewrite IH; reflexivity.
Qed.

(** One data line is read back as its field texts, and the fields of a
    line with as many texts as keys are their coerced forms. *)
Lemma joined_line_decodes (texts : list jsstring) :
  d <> quote ->
  texts <> [] ->
  Forall (plain_text d) texts ->
  parseDelimitedLine (join [d] (map (fun s => escapeValue s [d]) texts)) [d]
  = texts.
Proof.
  intros Hdq Hne Hplain; destruct texts as [|t ts]; [contradiction|].
  unfold parseDelimitedLine; rewrite loop_joined_fields; [reflexivity|exact Hdq|].
  eapply Forall_impl; [|exact Hplain].
  intros s (_ & [H|H]); [left; rewrite H; reflexivity | right; exact H].
Qed.

Lemma decode_lines (keys : list jsstring) (rows : list (list jsstring)) :
  d <> quote ->
  Forall (Forall (plain_text d)) rows ->
  Forall (fun texts =>
            ends_in_ink (join [d] (map (fun s => escapeValue s [d]) texts)))
    rows ->
  Forall (fun texts => length texts = length keys) rows ->
  map (fun line =>
         combine keys
           (map (fun j => coerce parseNumbers parseBooleans
                            (field_at (parseDelimitedLine line [d]) j))
              (seq 0 (length keys))))
    (filter (fun line => negb (is_blank line))
       (map (fun texts => join [d] (map (fun s => escapeValue s [d]) texts))
          rows))
  = map (fun texts =>
           combine keys (map (coerce parseNumbers parseBooleans) texts))
      rows.
Proof.
  intros Hdq Hplain Hink Hlens.
  induction rows as [|texts rows IH]; [reflexivity|].
  inversion Hplain as [|? ? Hp Hps]; inversion Hink as [|? ? Hi His];
    inversion Hlens as [|? ? Hl Hls]; subst.
  cbn [map filter]; unfold is_blank at 1.
  rewrite trim_ink_not_empty by assumption; cbn [negb map].
  rewrite IH by assumption; f_equal.
  assert (Hne : texts <> []).
  { destruct Hi as (body & c & Hb & _).
    intros ->; destruct body; discriminate. }
  rewrite joined_line_decodes by assumption.
  rewrite <- Hl.
  rewrite (@map_field_at _ (coerce parseNumbers parseBooleans) [] texts).
  reflexivity.
Qed.

(** The schema line is read back as the key list. *)
Lemma schema_line_decodes (key : jsstring) (keys lines : list jsstring) :
  Forall (fun k => includes k [d] = false) (key :: keys) ->
  schema_and_data
    ((lit "@schema" ++ [d] ++ join [d] (key :: keys)) :: lines) [d]
  = (key :: keys, lines).
Proof.
  intros Hk; unfold schema_and_data; cbn [hd tl].
  rewrite startsWith_app.
  replace (lit "@schema" ++ [d] ++ join [d] (key :: keys))
    with ((lit "@schema" ++ [d]) ++ join [d] (key :: keys))
    by (rewrite <- app_assoc; reflexivity).
  rewrite remove_first_prefix, split_join by assumption; reflexivity.
Qed.

(** X16.  Array mode round trip.  Take a non-empty array of records
    that all have the same keys in the same order, the keys being
    unique, in property order, free of the delimiter and of newlines,
    single segments under the nested separator and other than
    [__proto__]; let every field text be free of newlines and hold a
    quote only together with the delimiter, and let every row end in a
    code unit that is not white space.  With a one-character delimiter
    other than the quote and the newline and the schema line included,
    decoding the encoded document under [array] gives, row by row, the
    record that maps each key to the coerced form of its field text. *)
Theorem array_round_trip
  (keys : list jsstring) (arr : list object) (rows : list (list jsstring)) :
  d <> quote ->
  d <> newline ->
  arr <> [] ->
  NoDup keys ->
  property_order keys ->
  Forall (plain_key d separator) keys ->
  Forall2 (fun record texts =>
             map fst record = keys
             /\ mapM String_or_empty (map snd record) = Ok texts) arr rows ->
  Forall (Forall (plain_text d)) rows ->
  Forall (fun texts =>
            ends_in_ink (join [d] (map (fun s => escapeValue s [d]) texts)))
    rows ->
  exists toon,
    convertArrayToToon arr [d] true = Ok toon
    /\ parseToon toon [d] separator (lit "array") parseNumbers parseBooleans
       = Ok (VArr (map (fun texts =>
                          VObj (combine keys
                                  (map (coerce parseNumbers parseBooleans)
                                     texts)))
                     rows)).
Proof.
  intros Hdq Hdn Harr Hnd Hord Hkeys Hrows Hplain Hink.
  set (line := fun texts => join [d] (map (fun s => escapeValue s [d]) texts)).
  set (lines := map line rows).
  set (schema := lit "@schema" ++ [d] ++ join [d] keys).
  destruct arr as [|first arr']; [contradiction|].
  destruct rows as [|texts1 rows']; [inversion Hrows|].
  assert (Hk1 : map fst first = keys) by (inversion Hrows; tauto).
  assert (Hlens : Forall (fun texts => length texts = length keys)
                    (texts1 :: rows')).
  { clear - Hrows; induction Hrows as [|r t ? ? (Hk & Ht) _ IH];
      constructor; auto.
    apply mapM_length in Ht; rewrite length_map in Ht.
    rewrite Ht, <- Hk, length_map; reflexivity. }
  assert (Hkne : exists key keys', keys = key :: keys').
  { apply Forall_inv in Hink; destruct Hink as (body & c & Hb & _).
    apply Forall_inv in Hlens.
    clear - Hb Hlens.
    destruct keys as [|key keys']; [|eauto].
    destruct texts1; [|discriminate].
    destruct body; discriminate. }
  assert (Hlines_ink : Forall ends_in_ink lines)
    by (apply Forall_map; exact Hink).
  assert (Hlines_nl : Forall (fun l => includes l [newline] = false) lines).
  { apply Forall_map; eapply Forall_impl; [|exact Hplain].
    intros texts Ht; apply includes_join; [auto|].
    apply Forall_map; eapply Forall_impl; [|exact Ht].
    intros s (Hs & _); apply includes_escapeValue; [discriminate | exact Hs]. }
  assert (Hschema_nl : includes schema [newline] = false).
  { unfold schema.
    rewrite !includes_char_app, (includes_char [d] newline); cbn [existsb].
    rewrite includes_join;
      [|auto|eapply Forall_impl; [|exact Hkeys];
             intros s (_ & H & _); exact H].
    apply not_eq_sym, N.eqb_neq in Hdn; rewrite Hdn; reflexivity. }
  assert (Htrim : trim (join [newline] (schema :: lines))
                  = join [newline] (schema :: lines)).
  { rewrite join_cons by discriminate; unfold trim.
    change (schema ++ [newline] ++ join [newline] lines)
      with (64%N :: (lit "schema" ++ [d] ++ join [d] keys) ++ [newline]
                    ++ join [newline] lines).
    rewrite trimStart_head_ink by reflexivity.
    apply trimEnd_ink.
    change (ends_in_ink (schema ++ [newline] ++ join [newline] lines)).
    do 2 apply ends_in_ink_app.
    apply ends_in_ink_join; [discriminate | exact Hlines_ink]. }
  assert (Henc : convertArrayToToon (first :: arr') [d] true
                 = Ok (join [newline] (schema :: lines))).
  { unfold convertArrayToToon; rewrite Hk1.
    rewrite (array_rows_texts Hnd Hrows); cbn [bind].
    rewrite <- (map_map line (fun l => l ++ [newline])).
    fold lines; rewrite concat_lines by discriminate.
    rewrite <- Htrim.
    rewrite <- (@trim_surrounded [] (join [newline] (schema :: lines))
                  [newline]) by reflexivity.
    rewrite join_cons by discriminate.
    unfold schema_line, schema; do 2 f_equal.
    repeat (rewrite <- ?app_assoc; cbn [app]); reflexivity. }
  eexists; split; [exact Henc|].
  rewrite parseToon_unfold.
  rewrite Htrim, split_join by (constructor; assumption).
  destruct Hkne as (key & keys' & Hkeq).
  unfold parse_records, schema; rewrite Hkeq, schema_line_decodes
    by (rewrite <- Hkeq; eapply Forall_impl; [|exact Hkeys];
        intros s (H & _); exact H).
  rewrite <- Hkeq.
  rewrite parse_rows_plain;
    [|assumption|assumption|
     eapply Forall_impl; [|exact Hkeys]; intros s (_ & _ & H1 & H2); auto].
  cbn [bind]; unfold shape_output.
  change (str_eqb (lit "array") (lit "auto")) with false.
  change (str_eqb (lit "array") (lit "object")) with false.
  cbv iota; do 2 f_equal.
  unfold lines, line; rewrite decode_lines by assumption.
  apply map_map.
Qed.

End ArrayRoundTrip.

(* ================================================================== *)
(** * The token estimate at equal counts *)
(* ================================================================== *)

Section EqualCounts.
Context {host : Host}.

Lemma zero_over_positive (p : positive) :
  fmul (fdiv (of_Z 0) (of_Z (Zpos p))) (of_Z 100) = S754_zero false.
Proof.
  unfold of_Z; simpl binary_normalize.
  destruct (binary_round_nonzero false p) as [(m & e & ->) | ->]; reflexivity.
Qed.

(** X17.  When the JSON text is not empty and both texts come to the
    same token count, the estimate reads [~0.0% token reduction],
    whatever the two texts are. *)
Theorem estimateTokenSavings_equal_counts (jsonStr toonStr : jsstring) :
  jsonStr <> [] ->
  token_count toonStr = token_count jsonStr ->
  estimateTokenSavings jsonStr toonStr = lit "~0.0% token reduction".
Proof.
  intros Hne Heq; unfold estimateTokenSavings.
  rewrite Heq, Z.sub_diag.
  assert (Ht : (0 < token_count jsonStr)%Z).
  { pose proof (token_count_ceiling jsonStr).
    destruct jsonStr; [contradiction | simpl length in *; lia]. }
  destruct (token_count jsonStr) as [|t|t]; try lia.
  rewrite zero_over_positive; reflexivity.
Qed.

End EqualCounts.

(* ================================================================== *)
(** * The loop over the items *)
(* ================================================================== *)

Section ExecuteFacts.
Context {host : Host}.

Lemma execute_loop_continue (items : list ToonItem) (i : nat)
  (returnData : list item_output) :
  Forall (fun item => parse_item item <> Escapes) items ->
  exists outputs,
    execute_loop true items i returnData = Returned (returnData ++ outputs)
    /\ Forall2 (fun item output =>
                  (exists json, parse_item item = Ok json
                                /\ output = Json json)
                  \/ (exists error, parse_item item = Throw error
                                    /\ output = ErrorMessage error))
         items outputs.
Proof.
  intros Hall; revert i returnData.
  induction Hall as [|item items Hitem _ IH]; intros i returnData.
  - exists []; rewrite app_nil_r; split; [reflexivity | constructor].
  - cbn [execute_loop].
    destruct (parse_item item) as [json|error|] eqn:E; [| |contradiction].
    + destruct (IH (S i) (returnData ++ [Json json])) as (outputs & -> & H).
      exists (Json json :: outputs); rewrite <- app_assoc.
      split; [reflexivity|]; constructor; [left; eauto | exact H].
    + destruct (IH (S i) (returnData ++ [ErrorMessage error]))
        as (outputs & -> & H).
      exists (ErrorMessage error :: outputs); rewrite <- app_assoc.
      split; [reflexivity|]; constructor; [right; eauto | exact H].
Qed.

(** X18.  A node that continues on failure returns one output per item,
    in the order of the items: the parsed JSON where the item parses and
    an error entry where it throws.  No item makes the run fail, and an
    item that throws does not disturb the outputs of the others. *)
Theorem execute_continue_on_fail (items : list ToonItem) :
  Forall (fun item => parse_item item <> Escapes) items ->
  exists returnData,
    execute true items = Returned returnData
    /\ length returnData = length items
    /\ Forall2 (fun item output =>
                  (exists json, parse_item item = Ok json
                                /\ output = Json json)
                  \/ (exists error, parse_item item = Throw error
                                    /\ output = ErrorMessage error))
         items returnData.
Proof.
  intros Hall.
  destruct (execute_loop_continue 0 [] Hall) as (outputs & Hrun & H).
  exists outputs; split; [exact Hrun|]; split; [|exact H].
  symmetry; eapply Forall2_length; exact H.
Qed.

Lemma execute_loop_stops (items : list ToonItem) (i : nat)
  (returnData : list item_output) (error : exn) (itemIndex : nat) :
  execute_loop false items i returnData = NodeOperationError error itemIndex ->
  exists before item after,
    items = before ++ item :: after
    /\ itemIndex = i + length before
    /\ parse_item item = Throw error
    /\ Forall (fun earlier => exists json, parse_item earlier = Ok json)
         before.
Proof.
  revert i returnData; induction items as [|item items IH];
    intros i returnData; cbn [execute_loop]; [discriminate|].
  destruct (parse_item item) as [json|e|] eqn:E; [| |discriminate].
  - intros H; apply IH in H as (before & item' & after & -> & -> & Ht & Hb).
    exists (item :: before), item', after.
    split; [reflexivity|]; split; [simpl; lia|]; split; [exact Ht|].
    constructor; [eauto | exact Hb].
  - intros H; injection H as Hi; subst itemIndex; destruct e, error.
    exists [], item, items.
    split; [reflexivity|]; split; [simpl; lia|]; split; [exact E|].
    constructor.
Qed.

(** X19.  A node that does not continue on failure stops at the first
    item that throws: the error it raises carries what that item threw
    and its index, and every item before it parsed. *)
Theorem execute_stops_at_first_error (items : list ToonItem) (error : exn)
  (itemIndex : nat) :
  execute false items = NodeOperationError error itemIndex ->
  exists before item after,
    items = before ++ item :: after
    /\ length before = itemIndex
    /\ parse_item item = Throw error
    /\ Forall (fun earlier => exists json, parse_item earlier = Ok json)
         before.
Proof.
  intros H; apply execute_loop_stops in H
    as (before & item & after & -> & -> & Ht & Hb).
  exists before, item, after; auto.
Qed.

Lemma execute_loop_returns (items : list ToonItem) (i : nat)
  (returnData result : list item_output) :
  execute_loop false items i returnData = Returned result ->
  exists jsons,
    mapM parse_item items = Ok jsons
    /\ result = returnData ++ map Json jsons.
Proof.
  revert i returnData; induction items as [|item items IH];
    intros i returnData; cbn [execute_loop mapM].
  - intros H; inversion H; subst.
    exists []; rewrite app_nil_r; auto.
  - destruct (parse_item item) as [json|e|] eqn:E; try discriminate.
    intros H; apply IH in H as (jsons & -> & ->).
    exists (json :: jsons); rewrite <- app_assoc; auto.
Qed.

(** X20.  When a node that does not continue on failure returns, every
    item parsed, and the outputs are the parsed values in the order of
    the items: no error entry is ever returned. *)
Theorem execute_returns_all_parsed (items : list ToonItem)
  (returnData : list item_output) :
  execute false items = Returned returnData ->
  exists jsons,
    mapM parse_item items = Ok jsons
    /\ returnData = map Json jsons.
Proof.
  intros H; apply execute_loop_returns in H as (jsons & Hm & ->).
  exists jsons; auto.
Qed.

End ExecuteFacts.

(* ================================================================== *)
(** * The codec on the sample data *)
(* ================================================================== *)

Section Samples.
Import Reference.

(** The README example, there and back. *)
Example john_encodes :
  convertObjectToToon john bar dot true = Ok john_toon.
Proof. vm_compute; reflexivity. Qed.

Example john_decodes :
  parseToon john_toon bar dot (lit "auto") true true = Ok (VObj john).
Proof. vm_compute; reflexivity. Qed.

(** C1 is not true of every flat object: a key that holds the nested
    separator comes back as a nested object. *)
Lemma dotted_key_comes_back_nested :
  convertObjectToToon dotted bar dot true = Ok dotted_toon
  /\ parseToon dotted_toon bar dot (lit "object") true true
     = Ok (VObj [(lit "a", VObj [(lit "b", VStr (lit "x"))])])
  /\ parseToon dotted_toon bar dot (lit "object") true true
     <> Ok (VObj [(lit "a.b", coerce true true (lit "x"))]).
Proof.
  split; [vm_compute; reflexivity|].
  split; [vm_compute; reflexivity|].
  vm_compute; discriminate.
Qed.

(** C2.  A value with a newline is quoted by the encoder, but the
    decoder cuts the text into lines before it looks at quotes: the
    quoted field is split in two and the string is not recovered. *)
Theorem newline_value_is_cut :
  escapeValue two_lines bar = [quote] ++ two_lines ++ [quote]
  /\ convertObjectToToon note bar dot true = Ok note_toon
  /\ parseToon note_toon bar dot (lit "object") false false
     = Ok (VObj [(lit "note", VStr (lit "x"))])
  /\ parseToon note_toon bar dot (lit "auto") false false
     = Ok (VArr [VObj [(lit "note", VStr (lit "x"))];
                 VObj [(lit "note", VStr (lit "y"))]]).
Proof. repeat split; vm_compute; reflexivity. Qed.

(** C3.  A string with a quote but neither delimiter nor newline is
    passed through by [escapeValue], and the tokenizer drops the
    quote. *)
Theorem bare_quote_is_dropped :
  escapeValue quoted_word bar = quoted_word
  /\ parseDelimitedLine (escapeValue quoted_word bar) bar = [lit "ab"]
  /\ parseDelimitedLine (escapeValue quoted_word bar) bar <> [quoted_word].
Proof.
  split; [vm_compute; reflexivity|].
  split; [vm_compute; reflexivity|].
  vm_compute; discriminate.
Qed.


(** C5 is not what the code does: two empty strings print NaN. *)
Lemma empty_json_prints_nan :
  estimateTokenSavings [] [] = lit "~NaN% token reduction"
  /\ estimateTokenSavings [] (lit "a|b") = lit "~-Infinity% token reduction".
Proof. split; vm_compute; reflexivity. Qed.

(** C10.  The key list is that of the first element, but a key the
    second element lacks is still looked up on its prototype: the
    inherited [toString] is printed where the claim has an empty
    field. *)
Theorem inherited_property_is_printed :
  convertArrayToToon inherited_rows bar true
  = Ok (lit "@schema|toString" ++ [newline] ++ lit "x" ++ [newline]
        ++ lit "function toString() { [native code] }")
  /\ convertArrayToToon inherited_rows bar true
     <> Ok (lit "@schema|toString" ++ [newline] ++ lit "x").
Proof. split; [vm_compute; reflexivity | vm_compute; discriminate]. Qed.

(** ** The theorems at work on the samples *)

Lemma object_round_trip_john :
  exists toon,
    convertObjectToToon john bar dot true = Ok toon
    /\ parseToon toon bar dot (lit "object") true true
       = Ok (VObj (combine (map fst john)
                     (map (coerce true true)
                        [lit "John"; lit "30"; lit "Madrid"]))).
Proof.
  apply (@object_round_trip Reference.host 124%N dot true true john
           [lit "John"; lit "30"; lit "Madrid"]).
  - vm_compute; discriminate.
  - vm_compute; discriminate.
  - repeat constructor; vm_compute; intuition discriminate.
  - vm_compute; reflexivity.
  - repeat constructor; vm_compute; try reflexivity; discriminate.
  - unfold john; cbn [map snd]; repeat constructor.
  - vm_compute; reflexivity.
  - repeat (apply Forall_cons || apply Forall_nil);
      (split; [reflexivity | right; reflexivity]).
  - right; exists (lit "John|30|Madri"), 100%N; split; vm_compute; reflexivity.
Defined.


Lemma estimateTokenSavings_unguarded_bar :
  estimateTokenSavings [] bar = lit "~-Infinity% token reduction".
Proof.
  apply (@estimateTokenSavings_unguarded Reference.host [] bar).
  discriminate.
Defined.

Lemma parseToon_output_shaping_headerless :
  parseToon headerless_toon bar dot (lit "array") true true
  = Ok (VArr (map VObj headerless_records))
  /\ parseToon headerless_toon bar dot (lit "object") true true
     = Ok (VObj [(lit "field0", VStr (lit "a"));
                 (lit "field1", VStr (lit "b"));
                 (lit "field2", VStr (lit "c"))])
  /\ parseToon headerless_toon bar dot (lit "auto") true true
     = Ok (VArr (map VObj headerless_records)).
Proof.
  apply (@parseToon_output_shaping Reference.host headerless_toon bar dot
           true true headerless_records).
  vm_compute; reflexivity.
Defined.

Lemma coerce_number_then_boolean_samples :
  coerce true true (lit "true") = VBool true
  /\ coerce true true (lit "30") = VNum (Number (lit "30"))
  /\ coerce true false (lit "true") = VStr (lit "true")
  /\ parseToon typed_toon bar dot (lit "auto") true true
     = Ok (VObj [(lit "name", VStr (lit "Ann"));
                 (lit "age", VNum (Number (lit "30")));
                 (lit "ok", VBool true)]).
Proof.
  destruct (@coerce_number_then_boolean Reference.host bar dot true true)
    as (_ & Hrows & Htoken & _ & _).
  destruct (Htoken (lit "true") ltac:(discriminate)) as (_ & Htrue & _).
  destruct (Htoken (lit "30") ltac:(discriminate)) as (Hnum & _).
  destruct (@coerce_number_then_boolean Reference.host bar dot true false)
    as (_ & _ & Htoken' & _ & _).
  destruct (Htoken' (lit "true") ltac:(discriminate)) as (_ & _ & Hstr).
  split; [apply Htrue; [right; vm_compute; reflexivity | | ]; reflexivity|].
  split; [apply Hnum; vm_compute; reflexivity|].
  split; [apply Hstr; [right; vm_compute; reflexivity | reflexivity]|].
  refine (eq_trans
            (Hrows typed_toon (lit "auto")
               [lit "name"; lit "age"; lit "ok"] [lit "Ann|30|true"]
               _ _ _ _) _).
  - vm_compute; reflexivity.
  - repeat constructor; vm_compute; intuition discriminate.
  - vm_compute; reflexivity.
  - repeat constructor; vm_compute; discriminate.
  - vm_compute; reflexivity.
Defined.

Lemma parseToon_blank_text_spaces :
  parseToon (lit "   ") bar dot (lit "object") true true = Ok (VObj []).
Proof.
  apply (@parseToon_blank_text Reference.host (lit "   ") bar dot true true).
  reflexivity.
Defined.

Lemma parseToon_schemaless_keys_headerless :
  exists keys,
    schema_and_data (split (trim headerless_toon) [newline]) bar
    = (keys, split (trim headerless_toon) [newline])
    /\ length keys = 3
    /\ nth_error keys 2 = Some (lit "field2").
Proof.
  destruct (@parseToon_schemaless_keys Reference.host headerless_toon bar dot
              true true ltac:(vm_compute; reflexivity))
    as (keys & Hsd & Hlen & Hnth & _).
  exists keys; split; [exact Hsd|].
  split; [exact Hlen | apply (Hnth 2); vm_compute; lia].
Defined.

(** ** More of the theorems at work on the samples *)

Lemma flattenObject_values_are_leaves_ann :
  Forall (fun kv => is_leaf (snd kv) = true) ann_flat.
Proof.
  apply (@flattenObject_values_are_leaves Reference.host dot ann [] ann_flat).
  vm_compute; reflexivity.
Defined.

Lemma flattenObject_keys_carry_prefix_ann :
  Forall (fun kv => startsWith (fst kv) (lit "root" ++ dot) = true)
    [(lit "root.user.name", VStr (lit "Ann"));
     (lit "root.user.tags", VStr (lit "a,b"));
     (lit "root.n", VNum (of_Z 1))].
Proof.
  apply (@flattenObject_keys_carry_prefix Reference.host dot ann (lit "root")).
  - discriminate.
  - vm_compute; reflexivity.
Defined.

Lemma flattenObject_of_flat_object_john :
  flattenObject john [] dot = Ok john /\ map fst john = map fst john.
Proof.
  apply (@flattenObject_of_flat_object Reference.host dot john john).
  - repeat constructor; vm_compute; intuition discriminate.
  - vm_compute; reflexivity.
  - repeat constructor; vm_compute; discriminate.
  - repeat constructor.
  - vm_compute; reflexivity.
Defined.

Lemma parseDelimitedLine_is_split_without_quotes_row :
  parseDelimitedLine (lit "John|30|Madrid") bar
  = split (lit "John|30|Madrid") bar.
Proof.
  apply (@parseDelimitedLine_is_split_without_quotes 124%N
           (lit "John|30|Madrid")).
  vm_compute; reflexivity.
Defined.

Lemma parseDelimitedLine_needs_one_character_pair :
  exists token, parseDelimitedLine (lit "a||b") (lit "||") = [token].
Proof.
  apply (@parseDelimitedLine_needs_one_character (lit "a||b") (lit "||")).
  vm_compute; discriminate.
Defined.

Lemma parseDelimitedLine_row_round_trip_row :
  parseDelimitedLine
    (join bar (map (fun s => escapeValue s bar) [lit "a|b"; quoted_word ++ bar;
                                                 lit "c"])) bar
  = [lit "a|b"; quoted_word ++ bar; lit "c"].
Proof.
  apply (@parseDelimitedLine_row_round_trip 124%N
           [lit "a|b"; quoted_word ++ bar; lit "c"]).
  - discriminate.
  - repeat (apply Forall_cons || apply Forall_nil);
      [left | left | right]; reflexivity.
Defined.

Lemma setNestedValue_then_lookup_john :
  lookup_path [lit "address"; lit "city"]
    (john ++ [(lit "address", VObj [(lit "city", VStr (lit "Madrid"))])])
  = Some (VStr (lit "Madrid")).
Proof.
  apply (@setNestedValue_then_lookup john
           (john ++ [(lit "address", VObj [(lit "city", VStr (lit "Madrid"))])])
           (lit "address.city") dot (VStr (lit "Madrid"))).
  - vm_compute; discriminate.
  - vm_compute; intuition discriminate.
  - vm_compute; reflexivity.
Defined.

Lemma setNestedValue_frame_john :
  own_get (lit "name")
    (john ++ [(lit "address", VObj [(lit "city", VStr (lit "Madrid"))])])
  = own_get (lit "name") john.
Proof.
  apply (@setNestedValue_frame john
           (john ++ [(lit "address", VObj [(lit "city", VStr (lit "Madrid"))])])
           (lit "address.city") dot (lit "address") (lit "name")
           [lit "city"] (VStr (lit "Madrid"))).
  - vm_compute; reflexivity.
  - vm_compute; discriminate.
  - vm_compute; reflexivity.
Defined.

Lemma setNestedValue_on_empty_record_abc :
  setNestedValue [] (lit "a.b.c") (VBool true) dot
  = Ok (nest (split (lit "a.b.c") dot) (VBool true)).
Proof.
  apply (@setNestedValue_on_empty_record (lit "a.b.c") dot (VBool true)).
  - vm_compute; discriminate.
  - repeat constructor.
Defined.

Lemma flattenObject_after_setNestedValue_abc :
  flattenObject (nest [lit "a"; lit "b"; lit "c"] (VBool true)) [] dot
  = Ok [(lit "a.b.c", VBool true)].
Proof.
  apply (@flattenObject_after_setNestedValue Reference.host dot (lit "a.b.c")
           (VBool true) (nest [lit "a"; lit "b"; lit "c"] (VBool true))).
  - repeat constructor.
  - vm_compute; discriminate.
  - reflexivity.
  - vm_compute; discriminate.
  - vm_compute; reflexivity.
Defined.

Lemma parse_rows_with_plain_keys_people :
  parse_rows [lit "name"; lit "age"] people_lines bar dot true true
  = Ok [[(lit "name", VStr (lit "Ann")); (lit "age", VNum (of_Z 30))];
        [(lit "name", VStr (lit "Bob")); (lit "age", VStr [])]].
Proof.
  refine (eq_trans
            (proj1 (@parse_rows_with_plain_keys Reference.host bar dot true
                      true [lit "name"; lit "age"] people_lines _ _ _)) _).
  - repeat constructor; vm_compute; intuition discriminate.
  - vm_compute; reflexivity.
  - repeat constructor; vm_compute; discriminate.
  - vm_compute; reflexivity.
Defined.

Lemma parse_rows_one_record_per_line_headerless :
  length headerless_records
  = length (filter (fun line => negb (is_blank line))
              (split headerless_toon [newline])).
Proof.
  apply (@parse_rows_one_record_per_line Reference.host bar dot true true
           [lit "field0"; lit "field1"; lit "field2"]
           (split headerless_toon [newline]) headerless_records).
  vm_compute; reflexivity.
Defined.

Lemma parseToon_schema_line_only_header :
  parseToon (lit "@schema|name|age") bar dot (lit "auto") true true
  = Ok (VArr []).
Proof.
  apply (@parseToon_schema_line_only Reference.host bar dot true true
           (lit "@schema|name|age") (lit "auto"));
    vm_compute; reflexivity.
Defined.

Lemma parseToon_ignores_surrounding_space_john :
  parseToon (lit "  " ++ john_toon ++ [newline]) bar dot (lit "auto") true
    true
  = parseToon john_toon bar dot (lit "auto") true true.
Proof.
  apply (@parseToon_ignores_surrounding_space Reference.host bar dot true true
           (lit "  ") john_toon [newline] (lit "auto"));
    reflexivity.
Defined.

Lemma array_round_trip_people :
  exists toon,
    convertArrayToToon people bar true = Ok toon
    /\ parseToon toon bar dot (lit "array") true true
       = Ok (VArr (map (fun texts =>
                          VObj (combine [lit "name"; lit "age"]
                                  (map (coerce true true) texts)))
                     people_texts)).
Proof.
  apply (@array_round_trip Reference.host 124%N dot true true
           [lit "name"; lit "age"] people people_texts).
  - discriminate.
  - discriminate.
  - discriminate.
  - repeat constructor; vm_compute; intuition discriminate.
  - vm_compute; reflexivity.
  - repeat constructor; vm_compute; discriminate.
  - repeat constructor; vm_compute; reflexivity.
  - repeat (apply Forall_cons || apply Forall_nil);
      (split; [reflexivity | right; reflexivity]).
  - repeat (apply Forall_cons || apply Forall_nil).
    + exists (lit "Ann|3"), 48%N; split; vm_compute; reflexivity.
    + exists (lit "Bob"), 124%N; split; vm_compute; reflexivity.
Defined.

Lemma estimateTokenSavings_equal_counts_abcd :
  estimateTokenSavings (lit "abcd") (lit "ab") = lit "~0.0% token reduction".
Proof.
  apply (@estimateTokenSavings_equal_counts Reference.host (lit "abcd")
           (lit "ab")).
  - discriminate.
  - reflexivity.
Defined.

Lemma execute_continue_on_fail_clash :
  exists returnData,
    execute true [john_item; clash_item; john_item] = Returned returnData
    /\ length returnData = 3
    /\ Forall2 (fun item output =>
                  (exists json, parse_item item = Ok json
                                /\ output = Json json)
                  \/ (exists error, parse_item item = Throw error
                                    /\ output = ErrorMessage error))
         [john_item; clash_item; john_item] returnData.
Proof.
  apply (@execute_continue_on_fail Reference.host
           [john_item; clash_item; john_item]).
  repeat constructor; vm_compute; discriminate.
Defined.

Lemma execute_stops_at_first_error_clash :
  exists before item after,
    [john_item; clash_item; john_item] = before ++ item :: after
    /\ length before = 1
    /\ parse_item item = Throw TypeError
    /\ Forall (fun earlier => exists json, parse_item earlier = Ok json)
         before.
Proof.
  apply (@execute_stops_at_first_error Reference.host
           [john_item; clash_item; john_item] TypeError 1).
  vm_compute; reflexivity.
Defined.

Lemma execute_returns_all_parsed_john :
  exists jsons,
    mapM parse_item [john_item; john_item] = Ok jsons
    /\ [Json (VObj john); Json (VObj john)] = map Json jsons.
Proof.
  apply (@execute_returns_all_parsed Reference.host [john_item; john_item]
           [Json (VObj john); Json (VObj john)]).
  vm_compute; reflexivity.
Defined.

End Samples.
